(** * gnes/indexer/leveldb.py: LVDBIndexer and AsyncLVDBIndexer

    A shallow embedding of the two LevelDB-backed indexers.

    - [LVDBIndexer] writes one plyvel write batch per [add] and answers
      [query] by point lookups, returning [self._NOT_FOUND] for misses.
    - [AsyncLVDBIndexer] appends batches to [self._jobs]; a worker thread
      runs [_db_write]; [query] waits on the [_is_busy] event; [close]
      clears the jobs, sets [_exit_signal], joins the thread and closes
      the database.

    The libraries the file imports are modelled by their contracts:
    [plyvel.DB] as a finite map from byte strings to byte strings with an
    open/closed handle, [pickle] as an interface with its round-trip
    law, [threading.Event] as a flag. Python objects carry an identity,
    and the two threads are small-step machines over the shared fields
    of the indexer. *)

From Stdlib Require Import ZArith.
From Stdlib.Strings Require Import Byte.
From stdpp Require Import base option list countable gmap strings.

Open Scope Z_scope.

(** ** Bytes *)

Abbreviation bytes := (list byte).

#[global] Instance byte_eq_dec : EqDecision byte := Byte.byte_eq_dec.

#[global] Program Instance byte_countable : Countable byte :=
  inj_countable Byte.to_N Byte.of_N _.
Next Obligation. intros b. apply Byte.of_to_N. Qed.

(** Truth value of the result of [self._db.get(doc_id)]: [None] and the
    empty byte string are false, every other byte string is true. *)
Definition truthy_get (v : option bytes) : bool :=
  match v with
  | Some (_ :: _) => true
  | Some [] => false
  | None => false
  end.

(** ** Python values and objects *)

(** Scalars. *)
Inductive PyAtom :=
  | PyNone
  | PyBool (b : bool)
  | PyInt (n : Z)
  | PyStr (s : string).

(** The values that keys and documents range over: scalars, tuples and
    dicts of scalars. [PyDict []] is the value of the display [{}]. *)
Inductive PyVal :=
  | PyAtomV (a : PyAtom)
  | PyTuple (items : list PyAtom)
  | PyDict (items : list (PyAtom * PyAtom)).

Coercion PyAtomV : PyAtom >-> PyVal.

#[global] Instance PyAtom_eq_dec : EqDecision PyAtom.
Proof. solve_decision. Defined.

#[global] Instance PyVal_eq_dec : EqDecision PyVal.
Proof. solve_decision. Defined.

(** An object is a value at an address; [is] compares addresses. *)
Record PyObj := mkObj { obj_id : nat; obj_val : PyVal }.

Definition py_is (a b : PyObj) : bool := Nat.eqb (obj_id a) (obj_id b).

(** [x == {}] for a value [x] of the types above: true exactly for the
    empty dict. *)
Definition eq_empty_dict (v : PyVal) : bool :=
  match v with
  | PyDict [] => true
  | _ => false
  end.

(** Same Python type, as [type(a) is type(b)]. *)
Definition atom_type (a : PyAtom) : nat :=
  match a with
  | PyNone => 0 | PyBool _ => 1 | PyInt _ => 2 | PyStr _ => 3
  end%nat.

Definition py_type (v : PyVal) : nat :=
  match v with
  | PyAtomV a => atom_type a
  | PyTuple _ => 4
  | PyDict _ => 5
  end%nat.

(** The scalar values. Their pickle depends on the value alone, so two
    scalar keys are the same key of the store exactly when they are
    equal. (A tuple or dict is pickled with back-references to items
    that are one shared object, so two equal tuples can have different
    pickles.) *)
Definition is_scalar (v : PyVal) : bool :=
  match v with
  | PyAtomV _ => true
  | _ => false
  end.

(** ** Exceptions and the interpreter monad *)

Inductive exn :=
  | RuntimeError      (* plyvel: the database is closed *)
  | UnpicklingError   (* pickle.loads on bytes that are no pickle *)
  | IndexError.       (* list.pop on an empty list *)

Inductive outcome (A : Type) :=
  | Ret (a : A)
  | Raise (e : exn).
Arguments Ret {A} a.
Arguments Raise {A} e.

(** The interpreter state that matters for identity: the number of
    objects allocated so far. [None], [True] and [False] are the
    interpreter's own objects at addresses 0, 1, 2; every object created
    by the program gets the next free address above them. *)
Definition id_None : nat := 0.
Definition id_True : nat := 1.
Definition id_False : nat := 2.
Definition heap_base : nat := 3.

Record Heap := mkHeap { allocated : nat }.

Definition next_id (h : Heap) : nat := (heap_base + allocated h)%nat.

Definition Py (A : Type) : Type := Heap -> outcome A * Heap.

Definition ret {A} (a : A) : Py A := fun h => (Ret a, h).
Definition raise {A} (e : exn) : Py A := fun h => (Raise e, h).
Definition bind {A B} (m : Py A) (f : A -> Py B) : Py B :=
  fun h => match m h with
           | (Ret a, h') => f a h'
           | (Raise e, h') => (Raise e, h')
           end.

Notation "'do' x <- m ; k" := (bind m (fun x => k))
  (at level 10, x name, m at level 100, k at level 200).

(** A new object holding [v]. *)
Definition new_object (v : PyVal) : Py PyObj :=
  fun h => (Ret (mkObj (next_id h) v), mkHeap (S (allocated h))).

(** ** pickle *)

(** [pickle.dumps] and [pickle.loads] on the values above. The byte
    format is the library's; what the indexer relies on is that loading a
    dump gives the value back, and a dump is never the empty byte string
    (every pickle ends with the STOP opcode). [dumps] is the pickle of
    one given object; for scalars it is the pickle of every object of
    that value, for tuples and dicts it is not (see [is_scalar]), so a
    statement that takes two occurrences of an equal key for one key of
    the store is made for scalar keys. *)
Class Pickle := {
  dumps : PyVal -> bytes;
  loads : bytes -> option PyVal;
  loads_dumps : forall v, loads (dumps v) = Some v;
  dumps_nonempty : forall v, dumps v <> [];
}.

(** The object [pickle.loads] returns: the interpreter's own object for
    [None], [True] and [False], a new object for everything else. (Other
    immutable objects that an interpreter may share, such as small
    integers, count as new here; like the three above they are never an
    object that the program created.) *)
Definition loaded_object (v : PyVal) : Py PyObj :=
  match v with
  | PyAtomV PyNone => ret (mkObj id_None v)
  | PyAtomV (PyBool true) => ret (mkObj id_True v)
  | PyAtomV (PyBool false) => ret (mkObj id_False v)
  | _ => new_object v
  end.

Definition pickle_loads `{Pickle} (b : bytes) : Py PyObj :=
  match loads b with
  | Some v => loaded_object v
  | None => raise UnpicklingError
  end.

(** ** plyvel.DB *)

(** An open handle on a store, or a closed one. *)
Record DB := mkDB { store : gmap bytes bytes; closed : bool }.

(** [plyvel.DB(path, create_if_missing=True)]: the store found at the
    path, or a new empty one. *)
Definition plyvel_DB (on_disk : option (gmap bytes bytes)) : DB :=
  mkDB (default ∅ on_disk) false.

Definition DB_get (db : DB) (k : bytes) : Py (option bytes) :=
  if closed db then raise RuntimeError else ret (store db !! k).

Definition DB_close (db : DB) : DB := mkDB (store db) true.

(** A write batch: the puts, in the order they were made. Leaving the
    [with] block writes them to the store in one atomic write; LevelDB
    applies the updates of a batch in the order they were added, so a
    later put of a key overrides an earlier one. *)
Definition WriteBatch := list (bytes * bytes).

Definition wb_put (wb : WriteBatch) (k v : bytes) : WriteBatch := wb ++ [(k, v)].

Definition apply_puts (wb : WriteBatch) (s : gmap bytes bytes) : gmap bytes bytes :=
  foldl (fun s kv => <[kv.1 := kv.2]> s) s wb.

Definition DB_write (db : DB) (wb : WriteBatch) : outcome DB :=
  if closed db then Raise RuntimeError
  else Ret (mkDB (apply_puts wb (store db)) false).

(** Python's [zip]: stops at the end of the shorter list. *)
Fixpoint zip {A B} (l : list A) (l' : list B) : list (A * B) :=
  match l, l' with
  | a :: l, b :: l' => (a, b) :: zip l l'
  | _, _ => []
  end.

(** ** Python integers and byte strings *)

(** The exceptions of the conversions and of the dict operations below. *)
Inductive error :=
  | OverflowError           (* int.to_bytes: negative, or too big for the length *)
  | ValueError              (* int.to_bytes: negative length *)
  | KeyError (key : string).  (* del d[key] on a missing key *)

Inductive result (A : Type) :=
  | Ok (a : A)
  | Err (e : error).
Arguments Ok {A} a.
Arguments Err {A} e.

(** [x.bit_length()]: the number of bits of [abs(x)], 0 for 0. *)
Definition bit_length (x : Z) : Z :=
  if decide (x = 0) then 0 else Z.log2 (Z.abs x) + 1.

Definition Z_of_byte (b : byte) : Z := Z.of_N (Byte.to_N b).

(** The byte of value [z], for [0 <= z < 256]. *)
Definition byte_of_Z (z : Z) : byte := default x00 (Byte.of_N (Z.to_N z)).

(** The [length] low-order base-256 digits of [x], most significant
    first. *)
Fixpoint big_endian (length : nat) (x : Z) : bytes :=
  match length with
  | O => []
  | S n => big_endian n (x / 256) ++ [byte_of_Z (x mod 256)]
  end.

(** [x.to_bytes(length, 'big')], unsigned. *)
Definition to_bytes (x : Z) (length : Z) : result bytes :=
  if decide (length < 0) then Err ValueError
  else if decide (x < 0) then Err OverflowError
  else if decide (256 ^ length <= x) then Err OverflowError
  else Ok (big_endian (Z.to_nat length) x).

(** [int.from_bytes(b, 'big')], unsigned. *)
Definition from_bytes (b : bytes) : Z :=
  foldl (fun acc d => acc * 256 + Z_of_byte d) 0 b.

(** [del d[key]]. *)
Definition dict_del {V} (d : gmap string V) (key : string) : result (gmap string V) :=
  match d !! key with
  | Some _ => Ok (delete key d)
  | None => Err (KeyError key)
  end.

(** ** LVDBIndexer *)

Module LVDBIndexer.

Record t := mk {
  data_path : string;
  _db : DB;
  _NOT_FOUND : PyObj;
}.

Section Methods.
Context `{Pickle}.

(** [__init__]: opens the database at [data_path], then creates the
    sentinel [{}]. *)
Definition __init__ (path : string) (on_disk : option (gmap bytes bytes)) : Py t :=
  let db := plyvel_DB on_disk in
  do nf <- new_object (PyDict []);
  ret (mk path db nf).

(** The [for k, d in zip(keys, docs)] loop of [add], with [wb] the write
    batch so far. *)
Fixpoint add_loop (wb : WriteBatch) (kds : list (PyVal * PyVal)) : WriteBatch :=
  match kds with
  | [] => wb
  | (k, d) :: rest =>
      let doc_id := dumps k in
      let doc := dumps d in
      add_loop (wb_put wb doc_id doc) rest
  end.

(** [add]: the indexer after the call, or the exception raised. *)
Definition add (self : t) (keys docs : list PyVal) : outcome t :=
  let wb := add_loop [] (zip keys docs) in
  match DB_write (_db self) wb with
  | Ret db' => Ret (mk (data_path self) db' (_NOT_FOUND self))
  | Raise e => Raise e
  end.

(** The [for k in keys] loop of [query], with [res] the list so far. *)
Fixpoint query_loop (self : t) (keys : list PyVal) (res : list PyObj)
  : Py (list PyObj) :=
  match keys with
  | [] => ret res
  | k :: rest =>
      let doc_id := dumps k in
      do v <- DB_get (_db self) doc_id;
      do o <- (if truthy_get v then pickle_loads (default [] v)
               else ret (_NOT_FOUND self));
      query_loop self rest (res ++ [o])
  end.

Definition query (self : t) (keys : list PyVal) (top_k : Z) : Py (list PyObj) :=
  query_loop self keys [].

(** [close]; the base class's [close] touches none of the fields
    modelled here. *)
Definition close (self : t) : t :=
  mk (data_path self) (DB_close (_db self)) (_NOT_FOUND self).

(** A sequence of [add] calls, stopping at the first exception. *)
Fixpoint add_all (self : t) (batches : list (list PyVal * list PyVal)) : outcome t :=
  match batches with
  | [] => Ret self
  | (keys, docs) :: rest =>
      match add self keys docs with
      | Ret self' => add_all self' rest
      | Raise e => Raise e
      end
  end.

(** The puts that one [add] makes for the pairs [kds], in order. *)
Definition puts_of (kds : list (PyVal * PyVal)) : WriteBatch :=
  map (fun kd => (dumps kd.1, dumps kd.2)) kds.

(** The stores the indexer works on: every stored value is a non-empty
    byte string that [pickle.loads] accepts, as all values written by
    [add] are. *)
Definition decodable (v : bytes) : Prop := v <> [] /\ is_Some (loads v).

Definition decodable_store (s : gmap bytes bytes) : Prop :=
  map_Forall (fun _ v => decodable v) s.

End Methods.

(** [__getstate__], given the dict [d] that the parent's [__getstate__]
    returned. *)
Definition __getstate__ {V} (d : gmap string V) : result (gmap string V) :=
  dict_del d "_db".

(** [_int2bytes]; [//] is floor division. *)
Definition _int2bytes (x : Z) : result bytes :=
  to_bytes x ((bit_length x + 7) / 8).

(** The length that [_int2bytes] asks for. *)
Definition byte_length (x : Z) : Z := (bit_length x + 7) / 8.

(** [_bytes2int]. *)
Definition _bytes2int (xbytes : bytes) : Z := from_bytes xbytes.

(** [b] without its leading zero bytes. *)
Fixpoint strip_zeros (b : bytes) : bytes :=
  match b with
  | x00 :: rest => strip_zeros rest
  | _ => b
  end.

End LVDBIndexer.

(** ** threading.Event *)

Module Event.

Record t := mk { flag : bool }.

(** [Event()]: the flag starts false. *)
Definition new : t := mk false.
Definition set (e : t) : t := mk true.
Definition clear (e : t) : t := mk false.
Definition is_set (e : t) : bool := flag e.

(** [wait()] with no timeout returns once the flag is true and blocks
    while it is false: [can_return] says whether a waiting thread may
    go on. *)
Definition can_return (e : t) : bool := flag e.

(** The truth value of the object itself, as in [not self._exit_signal]:
    the class defines neither [__bool__] nor [__len__], so an [Event] is
    true whatever its flag. *)
Definition truthy (e : t) : bool := true.

End Event.

(** ** Python lists as used for [self._jobs] *)

Definition list_append {A} (l : list A) (x : A) : list A := l ++ [x].

(** [l.pop()]: removes and returns the last item; [None] stands for the
    [IndexError] on an empty list. *)
Definition list_pop {A} (l : list A) : option (A * list A) :=
  match last l with
  | Some x => Some (x, removelast l)
  | None => None
  end.

Definition list_truthy {A} (l : list A) : bool :=
  match l with
  | [] => false
  | _ :: _ => true
  end.

(** ** AsyncLVDBIndexer *)

Module AsyncLVDBIndexer.

(** A job: the tuple [(keys, docs)] as [add] received it. *)
Definition Batch : Type := list PyVal * list PyVal.

(** Where the thread running [_db_write] stands. *)
Inductive worker :=
  | W_while                              (* line 78: while not self._exit_signal *)
  | W_if                                 (* line 79: if self._jobs *)
  | W_pop                                (* line 80: self._jobs.pop() *)
  | W_busy_set (keys docs : list PyVal)  (* line 73: self._is_busy.set() *)
  | W_super_add (keys docs : list PyVal) (* line 74: super().add(keys, docs) *)
  | W_busy_clear                         (* line 75: self._is_busy.clear() *)
  | W_returned                           (* _db_write returned *)
  | W_raised (e : exn).                  (* ended by an uncaught exception *)

Definition is_alive (w : worker) : bool :=
  match w with
  | W_returned | W_raised _ => false
  | _ => true
  end.

Record t := mk {
  base : LVDBIndexer.t;          (* the fields of the parent class *)
  _is_busy : Event.t;
  _exit_signal : Event.t;
  _jobs : list Batch;
  _thread : worker;
}.

Definition with_base (b : LVDBIndexer.t) (a : t) : t :=
  mk b (_is_busy a) (_exit_signal a) (_jobs a) (_thread a).
Definition with_busy (e : Event.t) (a : t) : t :=
  mk (base a) e (_exit_signal a) (_jobs a) (_thread a).
Definition with_exit (e : Event.t) (a : t) : t :=
  mk (base a) (_is_busy a) e (_jobs a) (_thread a).
Definition with_jobs (j : list Batch) (a : t) : t :=
  mk (base a) (_is_busy a) (_exit_signal a) j (_thread a).
Definition with_thread (w : worker) (a : t) : t :=
  mk (base a) (_is_busy a) (_exit_signal a) (_jobs a) w.

Section Methods.
Context `{Pickle}.

(** [__init__]: the parent's [__init__], two events, an empty job list,
    and the thread started on [_db_write]. *)
Definition __init__ (path : string) (on_disk : option (gmap bytes bytes)) : Py t :=
  do b <- LVDBIndexer.__init__ path on_disk;
  ret (mk b Event.new Event.new [] W_while).

(** [add], line 66. *)
Definition add (self : t) (keys docs : list PyVal) : t :=
  with_jobs (list_append (_jobs self) (keys, docs)) self.

(** One step of the thread running [_db_write] (and [_add] inside it);
    [None] when the thread has ended. *)
Definition worker_step (self : t) : option t :=
  match _thread self with
  | W_while =>
      if negb (Event.truthy (_exit_signal self))
      then Some (with_thread W_if self)
      else Some (with_thread W_returned self)
  | W_if =>
      if list_truthy (_jobs self)
      then Some (with_thread W_pop self)
      else Some (with_thread W_while self)
  | W_pop =>
      match list_pop (_jobs self) with
      | Some ((keys, docs), rest) =>
          Some (with_thread (W_busy_set keys docs) (with_jobs rest self))
      | None => Some (with_thread (W_raised IndexError) self)
      end
  | W_busy_set keys docs =>
      Some (with_thread (W_super_add keys docs)
              (with_busy (Event.set (_is_busy self)) self))
  | W_super_add keys docs =>
      match LVDBIndexer.add (base self) keys docs with
      | Ret b => Some (with_thread W_busy_clear (with_base b self))
      | Raise e => Some (with_thread (W_raised e) self)
      end
  | W_busy_clear =>
      Some (with_thread W_while (with_busy (Event.clear (_is_busy self)) self))
  | W_returned => None
  | W_raised _ => None
  end.

(** Where a thread calling [query] or [close] stands. *)
Inductive caller :=
  | Idle
  | Q_wait (keys : list PyVal) (top_k : Z)    (* line 69: self._is_busy.wait() *)
  | Q_super (keys : list PyVal) (top_k : Z)   (* line 70: super().query(keys, top_k) *)
  | Q_returned (res : outcome (list PyObj))
  | C_clear                                   (* line 99: self._jobs.clear() *)
  | C_exit_set                                (* line 100: self._exit_signal.set() *)
  | C_join                                    (* line 101: self._thread.join() *)
  | C_super_close                             (* line 102: super().close() *)
  | C_returned.

(** What a step of the calling thread did. *)
Inductive effect :=
  | WaitReturned
  | Queried
  | JobsCleared
  | ExitSignalled
  | ThreadJoined
  | StorageClosed.

Record system := mkSys {
  obj : t;
  main : caller;
  heap : Heap;
}.

(** One step of the calling thread; [None] when it is blocked (in
    [wait] or [join]) or has nothing to run. *)
Definition caller_step (s : system) : option (effect * system) :=
  let a := obj s in
  match main s with
  | Idle => None
  | Q_wait keys top_k =>
      if Event.can_return (_is_busy a)
      then Some (WaitReturned, mkSys a (Q_super keys top_k) (heap s))
      else None
  | Q_super keys top_k =>
      let '(r, h') := LVDBIndexer.query (base a) keys top_k (heap s) in
      Some (Queried, mkSys a (Q_returned r) h')
  | Q_returned _ => None
  | C_clear =>
      Some (JobsCleared, mkSys (with_jobs [] a) C_exit_set (heap s))
  | C_exit_set =>
      Some (ExitSignalled,
            mkSys (with_exit (Event.set (_exit_signal a)) a) C_join (heap s))
  | C_join =>
      if is_alive (_thread a) then None
      else Some (ThreadJoined, mkSys a C_super_close (heap s))
  | C_super_close =>
      Some (StorageClosed,
            mkSys (with_base (LVDBIndexer.close (base a)) a) C_returned (heap s))
  | C_returned => None
  end.

(** The interleavings of the calling thread and the worker. *)
Inductive step : system -> option effect -> system -> Prop :=
  | step_worker s a' :
      worker_step (obj s) = Some a' ->
      step s None (mkSys a' (main s) (heap s))
  | step_caller s e s' :
      caller_step s = Some (e, s') ->
      step s (Some e) s'.

(** The same, with other threads free to call [add] at any time. *)
Inductive step_env : system -> system -> Prop :=
  | env_thread s e s' : step s e s' -> step_env s s'
  | env_add s keys docs :
      step_env s (mkSys (add (obj s) keys docs) (main s) (heap s)).

Definition reachable (s s' : system) : Prop := rtc step_env s s'.

Definition trace_of (e : option effect) : list effect :=
  match e with
  | Some x => [x]
  | None => []
  end.

(** [inevitably Q tr s]: every interleaving from [s] brings the calling
    thread to the end of [close], never gets stuck before, and ends in a
    state and with a trace of effects (continuing [tr]) satisfying [Q]. *)
Inductive inevitably (Q : list effect -> system -> Prop)
  : list effect -> system -> Prop :=
  | inev_done tr s :
      main s = C_returned -> Q tr s -> inevitably Q tr s
  | inev_step tr s :
      main s <> C_returned ->
      (exists e s', step s e s') ->
      (forall e s', step s e s' -> inevitably Q (tr ++ trace_of e) s') ->
      inevitably Q tr s.

(** The worker is at the loop test or has returned, the busy flag is
    clear, and the store is [s0]. *)
Definition never_writes (s0 : gmap bytes bytes) (s : system) : Prop :=
  (_thread (obj s) = W_while \/ _thread (obj s) = W_returned) /\
  Event.is_set (_is_busy (obj s)) = false /\
  store (LVDBIndexer._db (base (obj s))) = s0.

(** The number of steps the worker can still take, at most. *)
Definition worker_rank (w : worker) : nat :=
  match w with
  | W_if => 6
  | W_pop => 5
  | W_busy_set _ _ => 4
  | W_super_add _ _ => 3
  | W_busy_clear => 2
  | W_while => 1
  | W_returned => 0
  | W_raised _ => 0
  end.

(** The number of steps left in [close]. *)
Definition caller_rank (m : caller) : nat :=
  match m with
  | C_clear => 4
  | C_exit_set => 3
  | C_join => 2
  | C_super_close => 1
  | _ => 0
  end.

Definition rank (s : system) : nat :=
  (worker_rank (_thread (obj s)) + caller_rank (main s))%nat.

(** What holds at the end of [close]. *)
Definition closed_in_order (tr : list effect) (s : system) : Prop :=
  tr = [JobsCleared; ExitSignalled; ThreadJoined; StorageClosed] /\
  _jobs (obj s) = [] /\
  Event.is_set (_exit_signal (obj s)) = true /\
  is_alive (_thread (obj s)) = false /\
  closed (LVDBIndexer._db (base (obj s))) = true.

(** What holds at each line of [close], with [tr] the effects so far. *)
Definition closing (tr : list effect) (s : system) : Prop :=
  match main s with
  | C_clear => tr = []
  | C_exit_set => tr = [JobsCleared] /\ _jobs (obj s) = []
  | C_join =>
      tr = [JobsCleared; ExitSignalled] /\ _jobs (obj s) = [] /\
      Event.is_set (_exit_signal (obj s)) = true
  | C_super_close =>
      tr = [JobsCleared; ExitSignalled; ThreadJoined] /\ _jobs (obj s) = [] /\
      Event.is_set (_exit_signal (obj s)) = true /\
      is_alive (_thread (obj s)) = false
  | C_returned => closed_in_order tr s
  | _ => False
  end.

(** No call of the client is running. *)
Definition between_calls (m : caller) : bool :=
  match m with
  | Idle | Q_returned _ | C_returned => true
  | _ => false
  end.

(** A client that makes one call after another: besides the steps of
    [step_env], whenever no call is running it may call [query] or
    [close]. *)
Inductive step_client : system -> system -> Prop :=
  | client_env s s' : step_env s s' -> step_client s s'
  | client_query s keys top_k :
      between_calls (main s) = true ->
      step_client s (mkSys (obj s) (Q_wait keys top_k) (heap s))
  | client_close s :
      between_calls (main s) = true ->
      step_client s (mkSys (obj s) C_clear (heap s)).



End Methods.

(** [__getstate__], given the dict [d] that the [__getstate__] of
    [LVDBIndexer]'s parent returned: the parent class deletes ["_db"],
    then the three [del] statements run in order, the first missing key
    raising. *)
Definition __getstate__ {V} (d : gmap string V) : result (gmap string V) :=
  match LVDBIndexer.__getstate__ d with
  | Err e => Err e
  | Ok d =>
      match dict_del d "_thread" with
      | Err e => Err e
      | Ok d =>
          match dict_del d "_is_busy" with
          | Err e => Err e
          | Ok d => dict_del d "_exit_signal"
          end
      end
  end.

(** The keys that [__getstate__] deletes. *)
Definition runtime_fields : list string :=
  ["_db"; "_thread"; "_is_busy"; "_exit_signal"].

End AsyncLVDBIndexer.

(** ** An instance of the pickle interface

    A byte format with the two laws of [Pickle], so that the indexers can
    be run on concrete inputs: the PROTO opcode [0x80] followed by the
    binary digits of the value's code, one byte per digit. *)

Module PickleModel.

Definition atom_to_sum (a : PyAtom) : unit + bool + Z + string :=
  match a with
  | PyNone => inl (inl (inl tt))
  | PyBool b => inl (inl (inr b))
  | PyInt n => inl (inr n)
  | PyStr s => inr s
  end.

Definition atom_of_sum (x : unit + bool + Z + string) : PyAtom :=
  match x with
  | inl (inl (inl _)) => PyNone
  | inl (inl (inr b)) => PyBool b
  | inl (inr n) => PyInt n
  | inr s => PyStr s
  end.

#[global] Program Instance PyAtom_countable : Countable PyAtom :=
  inj_countable' atom_to_sum atom_of_sum _.
Next Obligation. by intros []. Qed.

Definition val_to_sum (v : PyVal)
  : PyAtom + list PyAtom + list (PyAtom * PyAtom) :=
  match v with
  | PyAtomV a => inl (inl a)
  | PyTuple l => inl (inr l)
  | PyDict l => inr l
  end.

Definition val_of_sum (x : PyAtom + list PyAtom + list (PyAtom * PyAtom)) : PyVal :=
  match x with
  | inl (inl a) => PyAtomV a
  | inl (inr l) => PyTuple l
  | inr l => PyDict l
  end.

#[global] Program Instance PyVal_countable : Countable PyVal :=
  inj_countable' val_to_sum val_of_sum _.
Next Obligation. by intros []. Qed.

Fixpoint digits (p : positive) : bytes :=
  match p with
  | xH => []
  | xO p => x30 :: digits p
  | xI p => x31 :: digits p
  end.

Fixpoint of_digits (b : bytes) : option positive :=
  match b with
  | [] => Some xH
  | x30 :: b => xO <$> of_digits b
  | x31 :: b => xI <$> of_digits b
  | _ => None
  end.

Definition model_dumps (v : PyVal) : bytes := x80 :: digits (encode v).

Definition model_loads (b : bytes) : option PyVal :=
  match b with
  | x80 :: b => of_digits b ≫= decode
  | _ => None
  end.

Lemma of_digits_digits p : of_digits (digits p) = Some p.
Proof. induction p as [p IH|p IH|]; simpl; by rewrite ?IH. Qed.

Lemma model_loads_dumps v : model_loads (model_dumps v) = Some v.
Proof. unfold model_loads, model_dumps. rewrite of_digits_digits. simpl. apply decode_encode. Qed.

Lemma model_dumps_nonempty v : model_dumps v <> [].
Proof. done. Qed.

#[global] Instance pickle : Pickle :=
  {| dumps := model_dumps; loads := model_loads;
     loads_dumps := model_loads_dumps;
     dumps_nonempty := model_dumps_nonempty |}.

End PickleModel.

(** ** Sample inputs *)

Module Sample.

Definition k1 : PyVal := PyInt 1.
Definition k2 : PyVal := PyInt 2.
Definition k3 : PyVal := PyInt 3.
Definition doc_a : PyVal := PyStr "a".
Definition doc_b : PyVal := PyStr "b".
Definition doc_c : PyVal := PyStr "c".
Definition empty_dict : PyVal := PyDict [].

(** The interpreter before the indexer is built, and after. *)
Definition h0 : Heap := mkHeap 0.
Definition h1 : Heap := mkHeap 1.

(** [LVDBIndexer("db")] on a path where no database exists yet. *)
Definition ix0 : LVDBIndexer.t :=
  LVDBIndexer.mk "db" (plyvel_DB None) (mkObj 3 empty_dict).

(** The same after [add([1, 2], ["a", {}])]. *)
Definition ix1 : LVDBIndexer.t :=
  LVDBIndexer.mk "db"
    (mkDB (<[dumps k2 := dumps empty_dict]> (<[dumps k1 := dumps doc_a]> ∅)) false)
    (mkObj 3 empty_dict).

(** And after [add([1, 2, 1], ["a", "b", "c"])] instead. *)
Definition ix2 : LVDBIndexer.t :=
  LVDBIndexer.mk "db"
    (mkDB (<[dumps k1 := dumps doc_c]>
             (<[dumps k2 := dumps doc_b]> (<[dumps k1 := dumps doc_a]> ∅))) false)
    (mkObj 3 empty_dict).

(** And after [add([1, 1, 2], ["a", "c", "b"])] instead. *)
Definition ix3 : LVDBIndexer.t :=
  LVDBIndexer.mk "db"
    (mkDB (<[dumps k2 := dumps doc_b]>
             (<[dumps k1 := dumps doc_c]> (<[dumps k1 := dumps doc_a]> ∅))) false)
    (mkObj 3 empty_dict).

(** [AsyncLVDBIndexer("db")] on the same path: the parent's fields, both
    events clear, no jobs, the worker at the start of [_db_write]. *)
Definition ax0 : AsyncLVDBIndexer.t :=
  AsyncLVDBIndexer.mk ix0 Event.new Event.new [] AsyncLVDBIndexer.W_while.

(** The same indexer with its worker at the start of
    [_add([1], ["a"])]. *)
Definition ax_add : AsyncLVDBIndexer.t :=
  AsyncLVDBIndexer.mk ix0 Event.new Event.new []
    (AsyncLVDBIndexer.W_busy_set [k1] [doc_a]).


(** [LVDBIndexer("db")] once more, on the store that [ix1] left. *)
Definition ix1_reopened : LVDBIndexer.t :=
  LVDBIndexer.mk "db"
    (mkDB (<[dumps k2 := dumps empty_dict]> (<[dumps k1 := dumps doc_a]> ∅)) false)
    (mkObj 4 empty_dict).

End Sample.


(** * Properties of LVDBIndexer *)

Section LVDBIndexer_facts.
Context `{Pickle}.
Import LVDBIndexer.

Lemma dumps_inj v w : dumps v = dumps w -> v = w.
Proof.
  intros E. apply (f_equal loads) in E. rewrite !loads_dumps in E. congruence.
Qed.

Lemma add_loop_puts wb kds : add_loop wb kds = wb ++ puts_of kds.
Proof.
  revert wb. induction kds as [|[k d] kds IH]; intros wb; simpl.
  - by rewrite app_nil_r.
  - rewrite IH. unfold wb_put. by rewrite <- app_assoc.
Qed.

Lemma apply_puts_app wb wb' s :
  apply_puts (wb ++ wb') s = apply_puts wb' (apply_puts wb s).
Proof. unfold apply_puts. apply foldl_app. Qed.

Lemma apply_puts_cons k v wb s :
  apply_puts ((k, v) :: wb) s = apply_puts wb (<[k:=v]> s).
Proof. reflexivity. Qed.

Lemma apply_puts_notin wb s k :
  k ∉ wb.*1 -> apply_puts wb s !! k = s !! k.
Proof.
  revert s. induction wb as [|[k' v'] wb IH]; intros s Hk; [done|].
  rewrite apply_puts_cons. simpl in Hk. apply not_elem_of_cons in Hk as [Hne Hk].
  rewrite IH by done. by rewrite lookup_insert_ne.
Qed.

Lemma apply_puts_last wb1 k v wb2 s :
  k ∉ wb2.*1 -> apply_puts (wb1 ++ (k, v) :: wb2) s !! k = Some v.
Proof.
  intros Hk. rewrite apply_puts_app, apply_puts_cons, apply_puts_notin by done.
  apply lookup_insert_eq.
Qed.

Lemma add_open self keys docs :
  closed (_db self) = false ->
  add self keys docs =
    Ret (mk (data_path self)
            (mkDB (apply_puts (puts_of (zip keys docs)) (store (_db self))) false)
            (_NOT_FOUND self)).
Proof.
  intros Ho. unfold add, DB_write. rewrite Ho, add_loop_puts. reflexivity.
Qed.

Lemma add_Ret_inv self keys docs self' :
  add self keys docs = Ret self' ->
  closed (_db self) = false /\
  closed (_db self') = false /\
  data_path self' = data_path self /\
  _NOT_FOUND self' = _NOT_FOUND self /\
  store (_db self') = apply_puts (puts_of (zip keys docs)) (store (_db self)).
Proof.
  unfold add, DB_write. destruct (closed (_db self)) eqn:Ho; [done|].
  rewrite add_loop_puts. intros [= <-]. simpl. done.
Qed.

Lemma zip_take {A B} (l : list A) (l' : list B) :
  zip (take (length l `min` length l')%nat l) (take (length l `min` length l')%nat l')
  = zip l l'.
Proof.
  revert l'. induction l as [|a l IH]; intros [|b l']; simpl; try done.
  by rewrite IH.
Qed.

Lemma length_zip {A B} (l : list A) (l' : list B) :
  length (zip l l') = (length l `min` length l')%nat.
Proof.
  revert l'. induction l as [|a l IH]; intros [|b l']; simpl; try done.
  by rewrite IH.
Qed.

#[global] Instance decodable_dec v : Decision (decodable v).
Proof. unfold decodable. apply _. Defined.

#[global] Instance decodable_store_dec s : Decision (decodable_store s).
Proof. unfold decodable_store. apply _. Defined.

Lemma decodable_dumps d : decodable (dumps d).
Proof. split; [apply dumps_nonempty | rewrite loads_dumps; eauto]. Qed.

Lemma decodable_store_empty : decodable_store ∅.
Proof. apply map_Forall_empty. Qed.

Lemma decodable_apply_puts kds s :
  decodable_store s -> decodable_store (apply_puts (puts_of kds) s).
Proof.
  revert s. induction kds as [|[k d] kds IH]; intros s Hs; [done|].
  change (puts_of ((k, d) :: kds)) with ((dumps k, dumps d) :: puts_of kds).
  rewrite apply_puts_cons. apply IH.
  apply map_Forall_insert_2; [apply decodable_dumps | done].
Qed.

Lemma add_decodable self keys docs self' :
  add self keys docs = Ret self' ->
  decodable_store (store (_db self)) -> decodable_store (store (_db self')).
Proof.
  intros (_ & _ & _ & _ & ->)%add_Ret_inv. apply decodable_apply_puts.
Qed.

Lemma add_all_inv self batches self' :
  add_all self batches = Ret self' ->
  (decodable_store (store (_db self)) -> decodable_store (store (_db self'))) /\
  _NOT_FOUND self' = _NOT_FOUND self /\
  (closed (_db self) = false -> closed (_db self') = false) /\
  forall k, Forall (fun b => k ∉ (zip b.1 b.2).*1) batches ->
            store (_db self') !! dumps k = store (_db self) !! dumps k.
Proof.
  revert self. induction batches as [|[keys docs] rest IH]; intros self; simpl.
  - intros [= <-]. done.
  - destruct (add self keys docs) as [self1|e] eqn:Ha; [|done].
    intros Hr. destruct (IH _ Hr) as (Hd & Hnf & Hc & Hk).
    pose proof (add_decodable _ _ _ _ Ha) as Hd1.
    apply add_Ret_inv in Ha as (Ho & Ho1 & _ & Hnf1 & Hs1).
    split; [auto|]. split; [congruence|]. split; [auto|].
    intros k Hall. apply Forall_cons in Hall as [Hk0 Hall].
    rewrite Hk by done. rewrite Hs1. apply apply_puts_notin.
    unfold puts_of. rewrite <- list_fmap_compose. simpl in Hk0.
    intros ([k' d'] & Heq & Hin)%list_elem_of_fmap. simpl in Heq.
    apply dumps_inj in Heq as ->. apply Hk0.
    apply list_elem_of_fmap. by exists (k', d').
Qed.

(** What [pickle.loads] returns for the dump of [v]: an object holding
    [v], either one of the interpreter's own or one newer than every
    object allocated before. *)
Lemma loaded_object_spec v h :
  exists o h', loaded_object v h = (Ret o, h') /\ obj_val o = v /\
    (allocated h <= allocated h')%nat /\
    ((obj_id o < heap_base)%nat \/ (next_id h <= obj_id o)%nat).
Proof.
  unfold loaded_object, new_object, ret, heap_base, id_None, id_True, id_False.
  destruct v as [[|[]| |]| |]; simpl; eexists _, _;
    (split; [reflexivity|]); simpl; repeat split; lia.
Qed.

(** One round of the loop of [query]. *)
Lemma query_loop_cons self k rest res h :
  closed (_db self) = false ->
  query_loop self (k :: rest) res h =
    match store (_db self) !! dumps k with
    | Some (b :: v) =>
        match loads (b :: v) with
        | Some d =>
            let '(_, h') := loaded_object d h in
            match loaded_object d h with
            | (Ret o, _) => query_loop self rest (res ++ [o]) h'
            | (Raise e, _) => (Raise e, h')
            end
        | None => (Raise UnpicklingError, h)
        end
    | _ => query_loop self rest (res ++ [_NOT_FOUND self]) h
    end.
Proof.
  intros Ho. simpl. unfold bind at 1. unfold DB_get. rewrite Ho. unfold ret at 1.
  destruct (store (_db self) !! dumps k) as [[|b v]|]; simpl; try done.
  unfold bind, pickle_loads. destruct (loads (b :: v)) as [d|]; [|done].
  destruct (loaded_object d h) as [[o|e] h']; done.
Qed.

(** The loop of [query] on a store of decodable values: it runs to the
    end, appends one object per key, and each object is the sentinel for
    a key without value and the loaded document otherwise. *)
Lemma query_loop_spec self keys res h :
  closed (_db self) = false ->
  decodable_store (store (_db self)) ->
  exists out h', query_loop self keys res h = (Ret (res ++ out), h') /\
    length out = length keys /\ (allocated h <= allocated h')%nat /\
    forall (i : nat) k, keys !! i = Some k ->
      match store (_db self) !! dumps k with
      | None => out !! i = Some (_NOT_FOUND self)
      | Some v => exists o, out !! i = Some o /\ loads v = Some (obj_val o) /\
                    ((obj_id o < heap_base)%nat \/ (next_id h <= obj_id o)%nat)
      end.
Proof.
  intros Ho Hd. revert res h.
  induction keys as [|k rest IH]; intros res h.
  - exists [], h. simpl. rewrite app_nil_r. repeat split; [lia|]. by intros i k.
  - rewrite query_loop_cons by done.
    destruct (store (_db self) !! dumps k) as [[|b v]|] eqn:Hk.
    + apply Hd in Hk as [[] _]. done.
    + destruct (Hd _ _ Hk) as [_ [d Hl]]. rewrite Hl.
      destruct (loaded_object_spec d h) as (o & h1 & Hlo & Hv & Hle & Hid).
      rewrite Hlo.
      destruct (IH (res ++ [o]) h1) as (out & h' & Hq & Hlen & Hle' & Hel).
      exists (o :: out), h'. rewrite Hq, <- app_assoc. simpl.
      repeat split; [by rewrite Hlen | lia |].
      intros [|i] k' Hi; simpl in Hi.
      * injection Hi as <-. rewrite Hk. exists o. simpl. by rewrite Hl, Hv.
      * specialize (Hel i k' Hi). destruct (store (_db self) !! dumps k'); [|done].
        destruct Hel as (o' & ? & ? & Hid'). exists o'. repeat split; [done..|].
        unfold next_id in *. lia.
    + destruct (IH (res ++ [_NOT_FOUND self]) h) as (out & h' & Hq & Hlen & Hle' & Hel).
      exists (_NOT_FOUND self :: out), h'. rewrite Hq, <- app_assoc. simpl.
      repeat split; [by rewrite Hlen | lia |].
      intros [|i] k' Hi; simpl in Hi.
      * injection Hi as <-. by rewrite Hk.
      * apply (Hel i k' Hi).
Qed.

(** On any open store, the loop raises only when [pickle.loads] rejects
    the value stored for one of the keys. *)
Lemma query_loop_raise self keys res h e h' :
  closed (_db self) = false ->
  query_loop self keys res h = (Raise e, h') ->
  e = UnpicklingError /\
  exists k v, k ∈ keys /\ store (_db self) !! dumps k = Some v /\
              v <> [] /\ loads v = None.
Proof.
  intros Ho. revert res h. induction keys as [|k rest IH]; intros res h; [done|].
  rewrite query_loop_cons by done.
  destruct (store (_db self) !! dumps k) as [[|b v]|] eqn:Hk.
  - intros (-> & k' & v' & ? & ?)%IH. split; [done|]. exists k', v'.
    split; [by right | done].
  - destruct (loads (b :: v)) as [d|] eqn:Hl.
    + destruct (loaded_object_spec d h) as (o & h1 & Hlo & _). rewrite Hlo.
      intros (-> & k' & v' & ? & ?)%IH. split; [done|]. exists k', v'.
      split; [by right | done].
    + intros [= <- <-]. split; [done|]. exists k, (b :: v).
      repeat split; [by left | done..].
  - intros (-> & k' & v' & ? & ?)%IH. split; [done|]. exists k', v'.
    split; [by right | done].
Qed.

End LVDBIndexer_facts.

(** * Claims about LVDBIndexer *)

Section LVDBIndexer_claims.
Context `{Pickle}.
Import LVDBIndexer.

(** C3, as amended: [add] makes no check of [len(keys) == len(docs)].
    On an open database it never raises: it pairs keys and documents
    with [zip], so with mismatched counts it writes, in one batch, the
    first [min (len keys) (len docs)] pairs, exactly as if both lists
    had been cut to that length. *)
Theorem add_pairs_up_to_the_shorter self keys docs :
  closed (_db self) = false ->
  let n := (length keys `min` length docs)%nat in
  exists self',
    add self keys docs = Ret self' /\
    add self (take n keys) (take n docs) = Ret self' /\
    length (zip keys docs) = n /\
    store (_db self') = apply_puts (puts_of (zip keys docs)) (store (_db self)).
Proof.
  intros Ho n. eexists. split; [by apply add_open|].
  split; [|split; [apply length_zip | reflexivity]].
  rewrite add_open by done. unfold n. by rewrite zip_take.
Qed.

(** C4: on an open database whose stored values are decodable, [query]
    returns a list with one element per key, in the order of [keys]:
    the sentinel [_NOT_FOUND] when the key has no value, the object
    loaded from the stored value otherwise. On any open database an
    exception can only come from a stored value that [pickle.loads]
    rejects, never from a key without value. *)
Theorem query_one_result_per_key self keys top_k h :
  closed (_db self) = false ->
  (decodable_store (store (_db self)) ->
   exists res h',
     query self keys top_k h = (Ret res, h') /\
     length res = length keys /\
     forall (i : nat) k, keys !! i = Some k ->
       match store (_db self) !! dumps k with
       | None => res !! i = Some (_NOT_FOUND self)
       | Some v => exists o, res !! i = Some o /\ loads v = Some (obj_val o)
       end) /\
  (forall e h',
     query self keys top_k h = (Raise e, h') ->
     exists k v, k ∈ keys /\ store (_db self) !! dumps k = Some v /\
                 v <> [] /\ loads v = None).
Proof.
  intros Ho. split.
  - intros Hd.
    destruct (query_loop_spec self keys [] h Ho Hd) as (out & h' & Hq & Hlen & _ & Hel).
    exists out, h'. repeat split; [done..|].
    intros i k Hi. specialize (Hel i k Hi).
    destruct (store (_db self) !! dumps k); [|done].
    destruct Hel as (o & ? & ? & _). by exists o.
  - intros e h' Hq. by apply (query_loop_raise self keys [] h e h' Ho) in Hq as [_ ?].
Qed.

(** C8: [top_k] has no effect on the result of [query]. *)
Theorem query_ignores_top_k self keys top_k h :
  query self keys top_k h = query self keys 1 h.
Proof. reflexivity. Qed.

(** C10: when the pairs of one [add] contain a key several times, the
    document of its last occurrence is the value stored, and a query for
    that key afterwards returns that document. The keys are scalars
    (integers, as [add] declares them, strings, booleans, [None]), for
    which an equal key is the same key of the store; the last
    occurrence is the pair after which no pair has a key with the same
    encoding. *)
Theorem add_last_occurrence_wins self keys docs self' l1 k d l2 top_k h :
  Forall (fun k' => is_scalar k' = true) keys ->
  add self keys docs = Ret self' ->
  zip keys docs = l1 ++ (k, d) :: l2 ->
  Forall (fun kd => dumps kd.1 <> dumps k) l2 ->
  store (_db self') !! dumps k = Some (dumps d) /\
  exists o h', query self' [k] top_k h = (Ret [o], h') /\ obj_val o = d.
Proof.
  intros _ (_ & Ho & _ & _ & Hs)%add_Ret_inv Hz Hk.
  assert (Hst : store (_db self') !! dumps k = Some (dumps d)).
  { rewrite Hs, Hz. unfold puts_of. rewrite map_app. simpl.
    apply apply_puts_last. rewrite <- list_fmap_compose.
    intros ([k' d'] & Heq & Hin)%list_elem_of_fmap. simpl in Heq.
    rewrite Forall_forall in Hk. by apply (Hk (k', d') Hin). }
  split; [done|].
  unfold query. rewrite query_loop_cons by done. rewrite Hst.
  destruct (dumps d) as [|b v] eqn:Hd; [by apply dumps_nonempty in Hd|].
  rewrite <- Hd, loads_dumps.
  destruct (loaded_object_spec d h) as (o & h1 & Hlo & Hv & _).
  rewrite Hlo. exists o, h1. done.
Qed.

(** C9: take an indexer built by [__init__] and filled by any sequence
    of [add] calls. A query returns, for every key never added, the
    sentinel object itself; and for every key, the returned object [is]
    the sentinel exactly when the key has no stored value: the object
    loaded for a stored document is never the sentinel, whatever its
    value, so the identity test tells a miss from a document even when
    the document equals [{}]. *)
Theorem not_found_is_told_apart_by_identity
    path on_disk h0 self0 h1 batches self keys top_k h :
  __init__ path on_disk h0 = (Ret self0, h1) ->
  decodable_store (default ∅ on_disk) ->
  add_all self0 batches = Ret self ->
  (allocated h1 <= allocated h)%nat ->
  exists res h',
    query self keys top_k h = (Ret res, h') /\
    forall (i : nat) k, keys !! i = Some k ->
      exists o, res !! i = Some o /\
        (default ∅ on_disk !! dumps k = None ->
         Forall (fun b => k ∉ (zip b.1 b.2).*1) batches ->
         o = _NOT_FOUND self) /\
        (py_is o (_NOT_FOUND self) = true <->
         store (_db self) !! dumps k = None) /\
        (forall v, store (_db self) !! dumps k = Some v ->
                   loads v = Some (obj_val o) /\
                   py_is o (_NOT_FOUND self) = false).
Proof.
  intros Hi Hd0 Ha Hh.
  unfold __init__, bind, new_object, ret in Hi. injection Hi as <- <-.
  destruct (add_all_inv _ _ _ Ha) as (Hd & Hnf & Hc & Hk). simpl in *.
  specialize (Hd Hd0). specialize (Hc eq_refl).
  destruct (query_loop_spec self keys [] h Hc Hd) as (out & h' & Hq & _ & _ & Hel).
  exists out, h'. split; [done|]. intros i k Hik. specialize (Hel i k Hik).
  destruct (store (_db self) !! dumps k) as [v|] eqn:Hv.
  - destruct Hel as (o & Ho & Hl & Hid). exists o. split; [done|].
    assert (Hne : py_is o (_NOT_FOUND self) = false).
    { unfold py_is. rewrite Hnf. simpl. apply Nat.eqb_neq.
      unfold next_id, heap_base in *. lia. }
    split; [|split].
    + intros Hnone Hall. rewrite Hk in Hv by done. congruence.
    + rewrite Hne. split; intros; done.
    + intros v' [= <-]. done.
  - exists (_NOT_FOUND self). split; [done|]. split; [done|]. split; [|done].
    unfold py_is. by rewrite Nat.eqb_refl.
Qed.

End LVDBIndexer_claims.

(** ** The claims above at the sample inputs *)

Section LVDBIndexer_samples.
Import LVDBIndexer Sample.

Lemma sample_init : __init__ "db" None h0 = (Ret ix0, h1).
Proof. reflexivity. Qed.

Lemma sample_add : add ix0 [k1; k2] [doc_a; empty_dict] = Ret ix1.
Proof. reflexivity. Qed.

Lemma sample_add_dup : add ix0 [k1; k2; k1] [doc_a; doc_b; doc_c] = Ret ix2.
Proof. reflexivity. Qed.

(** C3, counterexample: [add([1, 2], ["a"])] on a new indexer raises
    nothing and stores ["a"] under key 1. *)
Lemma add_mismatched_counts_is_not_rejected :
  length [k1; k2] <> length [doc_a] /\
  exists self',
    add ix0 [k1; k2] [doc_a] = Ret self' /\
    store (_db self') !! dumps k1 = Some (dumps doc_a) /\
    store (_db self') <> store (_db ix0).
Proof.
  split; [simpl; lia|]. eexists. split; [reflexivity|]. split; [reflexivity|].
  intros E. apply (f_equal (fun s => s !! dumps k1)) in E. vm_compute in E.
  discriminate E.
Qed.

Lemma add_pairs_up_to_the_shorter_witness :
  closed (_db ix0) = false /\
  exists self',
    add ix0 [k1; k2] [doc_a] = Ret self' /\
    add ix0 (take 1 [k1; k2]) (take 1 [doc_a]) = Ret self' /\
    length (zip [k1; k2] [doc_a]) = 1%nat /\
    store (_db self') =
      apply_puts (puts_of (zip [k1; k2] [doc_a])) (store (_db ix0)).
Proof.
  split; [reflexivity|].
  apply (add_pairs_up_to_the_shorter ix0 [k1; k2] [doc_a]). reflexivity.
Defined.

Lemma sample_decodable : decodable_store (store (_db ix1)).
Proof. apply (bool_decide_unpack _). vm_compute. reflexivity. Qed.

Lemma query_one_result_per_key_witness :
  closed (_db ix1) = false /\
  decodable_store (store (_db ix1)) /\
  exists res h',
    query ix1 [k2; k3; k1] 1 h1 = (Ret res, h') /\
    length res = length [k2; k3; k1] /\
    forall (i : nat) k, [k2; k3; k1] !! i = Some k ->
      match store (_db ix1) !! dumps k with
      | None => res !! i = Some (_NOT_FOUND ix1)
      | Some v => exists o, res !! i = Some o /\ loads v = Some (obj_val o)
      end.
Proof.
  split; [reflexivity|]. split; [exact sample_decodable|].
  apply (query_one_result_per_key ix1 [k2; k3; k1] 1 h1); [reflexivity|].
  exact sample_decodable.
Defined.

(** The query of the witness, run: the document [{}] stored under key 2
    comes back as a new object, key 3 gives the sentinel. *)
Example sample_query :
  query ix1 [k2; k3; k1] 1 h1 =
    (Ret [mkObj 4 empty_dict; mkObj 3 empty_dict; mkObj 5 doc_a], mkHeap 3).
Proof. vm_compute. reflexivity. Qed.

(** A stored document [{}] has the sentinel's type and compares equal to
    it; only [is] tells them apart. *)
Example empty_dict_document_vs_sentinel :
  exists o rest h',
    query ix1 [k2; k3] 1 h1 = (Ret (o :: rest), h') /\
    eq_empty_dict (obj_val o) = true /\
    obj_val o = obj_val (_NOT_FOUND ix1) /\
    py_type (obj_val o) = py_type (obj_val (_NOT_FOUND ix1)) /\
    py_is o (_NOT_FOUND ix1) = false.
Proof. eexists _, _, _. split; [vm_compute; reflexivity|]. done. Qed.

Lemma not_found_is_told_apart_by_identity_witness :
  __init__ "db" None h0 = (Ret ix0, h1) /\
  decodable_store (default ∅ (None : option (gmap bytes bytes))) /\
  add_all ix0 [([k1; k2], [doc_a; empty_dict])] = Ret ix1 /\
  (allocated h1 <= allocated h1)%nat /\
  exists res h',
    query ix1 [k2; k3] 1 h1 = (Ret res, h') /\
    forall (i : nat) k, [k2; k3] !! i = Some k ->
      exists o, res !! i = Some o /\
        (default ∅ (None : option (gmap bytes bytes)) !! dumps k = None ->
         Forall (fun b => k ∉ (zip b.1 b.2).*1) [([k1; k2], [doc_a; empty_dict])] ->
         o = _NOT_FOUND ix1) /\
        (py_is o (_NOT_FOUND ix1) = true <-> store (_db ix1) !! dumps k = None) /\
        (forall v, store (_db ix1) !! dumps k = Some v ->
                   loads v = Some (obj_val o) /\ py_is o (_NOT_FOUND ix1) = false).
Proof.
  assert (Hd : decodable_store (default ∅ (None : option (gmap bytes bytes)))).
  { apply (bool_decide_unpack _). vm_compute. reflexivity. }
  split; [reflexivity|]. split; [exact Hd|]. split; [reflexivity|].
  split; [simpl; lia|].
  apply (not_found_is_told_apart_by_identity "db" None h0 ix0 h1
           [([k1; k2], [doc_a; empty_dict])] ix1 [k2; k3] 1 h1);
    [reflexivity | exact Hd | reflexivity | simpl; lia].
Defined.

Lemma sample_later_keys :
  Forall (fun kd : PyVal * PyVal => dumps kd.1 <> dumps k1) [(k2, doc_b)].
Proof. repeat constructor. simpl. vm_compute. discriminate. Qed.

Lemma add_last_occurrence_wins_witness :
  Forall (fun k' => is_scalar k' = true) [k1; k1; k2] /\
  add ix0 [k1; k1; k2] [doc_a; doc_c; doc_b] = Ret ix3 /\
  zip [k1; k1; k2] [doc_a; doc_c; doc_b] = [(k1, doc_a)] ++ (k1, doc_c) :: [(k2, doc_b)] /\
  Forall (fun kd : PyVal * PyVal => dumps kd.1 <> dumps k1) [(k2, doc_b)] /\
  store (_db ix3) !! dumps k1 = Some (dumps doc_c) /\
  exists o h', query ix3 [k1] 1 h1 = (Ret [o], h') /\ obj_val o = doc_c.
Proof.
  assert (Hsc : Forall (fun k' => is_scalar k' = true) [k1; k1; k2])
    by (repeat constructor).
  split; [exact Hsc|]. split; [reflexivity|]. split; [reflexivity|].
  split; [exact sample_later_keys|].
  apply (add_last_occurrence_wins ix0 [k1; k1; k2] [doc_a; doc_c; doc_b] ix3
           [(k1, doc_a)] k1 doc_c [(k2, doc_b)] 1 h1);
    [exact Hsc | reflexivity | reflexivity | exact sample_later_keys].
Defined.

End LVDBIndexer_samples.

(** * Properties of AsyncLVDBIndexer *)

Section AsyncLVDBIndexer_facts.
Context `{Pickle}.
Import AsyncLVDBIndexer.

Lemma list_pop_append {A} (l : list A) x : list_pop (list_append l x) = Some (x, l).
Proof.
  unfold list_pop, list_append. by rewrite last_snoc, removelast_last.
Qed.

Lemma list_pop_nil {A} : list_pop ([] : list A) = None.
Proof. reflexivity. Qed.

Lemma list_truthy_append {A} (l : list A) x : list_truthy (list_append l x) = true.
Proof. by destruct l. Qed.

(** The test of line 78 sends the worker to the end of [_db_write],
    whatever the flag of [_exit_signal] and whatever the jobs. *)
Lemma worker_step_while a :
  _thread a = W_while -> worker_step a = Some (with_thread W_returned a).
Proof. unfold worker_step. by intros ->. Qed.

Lemma worker_step_ended a :
  is_alive (_thread a) = false -> worker_step a = None.
Proof. unfold worker_step. by destruct (_thread a). Qed.

(** An invariant of [step_env] holds in every reachable state. *)
Lemma reachable_invariant (I : system -> Prop) s s' :
  (forall x y, I x -> step_env x y -> I y) ->
  I s -> reachable s s' -> I s'.
Proof. intros Hstep Hs Hr. induction Hr; eauto. Qed.

Lemma caller_step_frame s e s' :
  caller_step s = Some (e, s') ->
  _thread (obj s') = _thread (obj s) /\
  _is_busy (obj s') = _is_busy (obj s) /\
  store (LVDBIndexer._db (base (obj s'))) = store (LVDBIndexer._db (base (obj s))) /\
  (forall b, b ∈ _jobs (obj s') -> b ∈ _jobs (obj s)).
Proof.
  unfold caller_step. destruct s as [a m h]; simpl.
  destruct m; try done.
  - destruct (Event.can_return _); [|done]. by intros [= <- <-].
  - destruct (LVDBIndexer.query _ _ _ _). by intros [= <- <-].
  - intros [= <- <-]. simpl. repeat split; try done. by intros b ?%elem_of_nil.
  - by intros [= <- <-].
  - destruct (is_alive _); [done|]. by intros [= <- <-].
  - by intros [= <- <-].
Qed.

Lemma never_writes_step s0 x y :
  never_writes s0 x -> step_env x y -> never_writes s0 y.
Proof.
  intros (Ht & Hb & Hs) Hstep. destruct Hstep as [s e s' Hstep|s keys docs].
  - destruct Hstep as [s a' Hw|s e s' Hc].
    + destruct Ht as [Ht|Ht].
      * rewrite worker_step_while in Hw by done. injection Hw as <-.
        split; [by right|]. done.
      * rewrite worker_step_ended in Hw; [done|]. by rewrite Ht.
    + apply caller_step_frame in Hc as (Ht' & Hb' & Hs' & _).
      unfold never_writes. by rewrite Ht', Hb', Hs'.
  - done.
Qed.

Lemma init_inv path on_disk h0 a h1 :
  __init__ path on_disk h0 = (Ret a, h1) ->
  _thread a = W_while /\ _jobs a = [] /\
  _is_busy a = Event.new /\ _exit_signal a = Event.new /\
  LVDBIndexer._db (base a) = plyvel_DB on_disk /\
  (allocated h0 < allocated h1)%nat.
Proof.
  unfold __init__, LVDBIndexer.__init__, bind, new_object, ret.
  intros [= <- <-]. simpl. repeat split; lia.
Qed.

(** A step of the worker: it was alive, it is closer to its end, it
    leaves [_exit_signal] alone and an empty job list empty. *)
Lemma worker_step_frame a a' :
  worker_step a = Some a' ->
  is_alive (_thread a) = true /\
  (worker_rank (_thread a') < worker_rank (_thread a))%nat /\
  _exit_signal a' = _exit_signal a /\
  (_jobs a = [] -> _jobs a' = []).
Proof.
  unfold worker_step. destruct a as [b eb ee j w]; simpl.
  destruct w; simpl; try done.
  - intros [= <-]. simpl. repeat split; [lia | done].
  - destruct (list_truthy j); intros [= <-]; simpl; repeat split; (lia || done).
  - destruct (list_pop j) as [[[keys docs] rest]|] eqn:Hp; intros [= <-]; simpl.
    + repeat split; [lia|]. intros ->. done.
    + repeat split; [lia | done].
  - intros [= <-]. simpl. repeat split; [lia | done].
  - destruct (LVDBIndexer.add b keys docs); intros [= <-]; simpl;
      repeat split; (lia || done).
  - intros [= <-]. simpl. repeat split; [lia | done].
Qed.

Lemma closing_step tr s e s' :
  closing tr s -> step s e s' ->
  closing (tr ++ trace_of e) s' /\ (rank s' < rank s)%nat.
Proof.
  intros Hc Hstep. destruct Hstep as [s a' Hw|s e s' Hcs].
  - apply worker_step_frame in Hw as (Hal & Hrk & Hex & Hj).
    simpl. rewrite app_nil_r. split; [|unfold rank; simpl; lia].
    unfold closing, closed_in_order in *. simpl.
    destruct (main s); try done; rewrite ?Hex; intuition congruence.
  - unfold closing, closed_in_order, rank, caller_step in *.
    destruct s as [a m h]; simpl in *.
    destruct m; try done.
    + injection Hcs as <- <-. simpl. subst tr. split; [done | lia].
    + injection Hcs as <- <-. simpl. destruct Hc as [-> ?]. split; [done | lia].
    + destruct (is_alive (_thread a)) eqn:Hal; [done|].
      injection Hcs as <- <-. simpl. destruct Hc as (-> & ? & ?).
      split; [done | lia].
    + injection Hcs as <- <-. simpl. destruct Hc as (-> & ? & ? & ?).
      split; [done | lia].
Qed.

Lemma closing_progress tr s :
  closing tr s -> main s <> C_returned -> exists e s', step s e s'.
Proof.
  intros Hc Hm. destruct s as [a m h]. unfold closing in Hc. simpl in *.
  destruct m; try done.
  - eexists _, _. by apply step_caller.
  - eexists _, _. by apply step_caller.
  - destruct (is_alive (_thread a)) eqn:Hal.
    + destruct (worker_step a) as [a'|] eqn:Hw.
      * eexists _, _. apply step_worker. exact Hw.
      * unfold worker_step in Hw. destruct (_thread a); try done;
          repeat case_match; done.
    + eexists _, _. apply step_caller. unfold caller_step. simpl. by rewrite Hal.
  - eexists _, _. by apply step_caller.
Qed.

Lemma closing_inevitably n tr s :
  (rank s <= n)%nat -> closing tr s -> inevitably closed_in_order tr s.
Proof.
  assert (Hdec : forall m : caller, m = C_returned \/ m <> C_returned).
  { intros m. destruct m; (by left) || (by right). }
  revert tr s. induction n as [|n IH]; intros tr s Hn Hc.
  - destruct (Hdec (main s)) as [Hm|Hm].
    + apply inev_done; [done|]. unfold closing in Hc. by rewrite Hm in Hc.
    + exfalso. unfold rank, closing in *. destruct (main s); simpl in *; try done; lia.
  - destruct (Hdec (main s)) as [Hm|Hm].
    + apply inev_done; [done|]. unfold closing in Hc. by rewrite Hm in Hc.
    + apply inev_step; [done | by eapply closing_progress |].
      intros e s' Hstep. destruct (closing_step _ _ _ _ Hc Hstep) as [Hc' Hr].
      apply IH; [lia | done].
Qed.





End AsyncLVDBIndexer_facts.

(** * Claims about AsyncLVDBIndexer *)

Section AsyncLVDBIndexer_claims.
Context `{Pickle}.
Import AsyncLVDBIndexer.

(** [wait()] lets the caller of [query] go on exactly when the busy
    flag is set. *)
Lemma wait_returns_iff_busy s keys top_k :
  main s = Q_wait keys top_k ->
  (is_Some (caller_step s) <-> Event.is_set (_is_busy (obj s)) = true).
Proof.
  intros Hm. unfold caller_step. rewrite Hm. unfold Event.can_return, Event.is_set.
  destruct (Event.flag _); split; done.
Qed.

(** C1, what the code does: [query] waits until the busy flag is SET,
    not until it is clear. On a new indexer, where no write is in flight
    and none ever starts, the flag stays clear and the call never gets
    past [wait()], whatever the worker and other callers of [add] do;
    in any state, [wait()] returns exactly when the flag is set. *)
Theorem query_on_idle_indexer_never_returns
    path on_disk h0 a h1 keys top_k s' :
  __init__ path on_disk h0 = (Ret a, h1) ->
  reachable (mkSys a (Q_wait keys top_k) h1) s' ->
  Event.is_set (_is_busy (obj s')) = false /\
  main s' = Q_wait keys top_k /\
  caller_step s' = None /\
  (forall b hb, is_Some (caller_step (mkSys b (Q_wait keys top_k) hb)) <->
                Event.is_set (_is_busy b) = true).
Proof.
  intros (Ht & _ & Hb & _ & Hdb & _)%init_inv Hr.
  pose (I := fun s => never_writes (default ∅ on_disk) s /\ main s = Q_wait keys top_k).
  assert (HI : I s').
  { apply (reachable_invariant I _ _) in Hr; [done| |].
    - intros x y [Hn Hm] Hstep. split; [by eapply never_writes_step|].
      destruct Hstep as [s e s2 Hstep|]; [|done].
      destruct Hstep as [|s e s2 Hc]; [done|].
      unfold caller_step in Hc. rewrite Hm in Hc.
      destruct Hn as (_ & Hbusy & _). unfold Event.can_return, Event.is_set in *.
      by rewrite Hbusy in Hc.
    - split; [|done]. split; [by left|]. simpl. rewrite Hb, Hdb. done. }
  destruct HI as [(_ & Hbusy & _) Hm].
  split; [done|]. split; [done|]. split.
  - unfold caller_step. rewrite Hm. unfold Event.can_return, Event.is_set in *.
    by rewrite Hbusy.
  - intros b hb.
    exact (wait_returns_iff_busy (mkSys b (Q_wait keys top_k) hb) keys top_k eq_refl).
Qed.

(** C2, what the code does: the test of [while not self._exit_signal]
    is on the event object, which is always true, so the worker leaves
    [_db_write] at its first test although the exit signal is not set.
    A batch enqueued on a new indexer stays in the queue for ever and
    the store never changes. *)
Theorem db_write_returns_without_dequeuing
    path on_disk h0 a h1 keys docs s' :
  __init__ path on_disk h0 = (Ret a, h1) ->
  reachable (mkSys (add a keys docs) Idle h1) s' ->
  Event.is_set (_exit_signal (obj s')) = false /\
  (keys, docs) ∈ _jobs (obj s') /\
  store (LVDBIndexer._db (base (obj s'))) = default ∅ on_disk /\
  (_thread (obj s') = W_while /\
     worker_step (obj s') = Some (with_thread W_returned (obj s')) \/
   _thread (obj s') = W_returned /\ worker_step (obj s') = None).
Proof.
  intros (Ht & Hj & Hb & He & Hdb & _)%init_inv Hr.
  pose (I := fun s => never_writes (default ∅ on_disk) s /\ main s = Idle /\
                      Event.is_set (_exit_signal (obj s)) = false /\
                      (keys, docs) ∈ _jobs (obj s)).
  assert (HI : I s').
  { apply (reachable_invariant I _ _) in Hr; [done| |].
    - intros x y (Hn & Hm & Hex & Hin) Hstep. split; [by eapply never_writes_step|].
      destruct Hstep as [s e s2 Hstep|s ks ds].
      + destruct Hstep as [s a' Hw|s e s2 Hc].
        * destruct Hn as ([Hth|Hth] & _).
          -- rewrite worker_step_while in Hw by done. injection Hw as <-. done.
          -- rewrite worker_step_ended in Hw; [done|]. by rewrite Hth.
        * unfold caller_step in Hc. by rewrite Hm in Hc.
      + simpl. repeat split; [done..|]. unfold list_append.
        apply elem_of_app. by left.
    - split; [|split; [done|split]]; simpl.
      + split; [by left|]. simpl. rewrite Hb, Hdb. done.
      + by rewrite He.
      + unfold list_append. rewrite Hj. simpl. by left. }
  destruct HI as ((Hth & _ & Hs) & _ & Hex & Hin). repeat split; [done..|].
  destruct Hth as [Hth|Hth]; [left|right]; (split; [done|]).
  - by apply worker_step_while.
  - apply worker_step_ended. by rewrite Hth.
Qed.

(** C5: [add] appends the batch at the end of [_jobs], and the worker's
    [if self._jobs: ... self._jobs.pop()] takes the batch at that same
    end, the one appended last, leaving the older ones; on an empty list
    the test fails and the worker goes back to the loop test at once. *)
Theorem jobs_are_taken_most_recent_first a keys docs :
  _jobs (add a keys docs) = _jobs a ++ [(keys, docs)] /\
  list_pop (_jobs (add a keys docs)) = Some ((keys, docs), _jobs a) /\
  (exists a1,
     worker_step (with_thread W_if (add a keys docs)) = Some a1 /\
     _thread a1 = W_pop /\
     worker_step a1 = Some (with_thread (W_busy_set keys docs) a)) /\
  list_pop (_jobs (with_jobs [] a)) = None /\
  worker_step (with_thread W_if (with_jobs [] a)) =
    Some (with_thread W_while (with_jobs [] a)).
Proof.
  split; [done|]. split; [apply list_pop_append|]. split; [|done].
  eexists. unfold worker_step at 1. simpl. rewrite list_truthy_append.
  split; [reflexivity|]. split; [done|].
  unfold worker_step. simpl. rewrite list_pop_append. by destruct a.
Qed.


(** C7: [add] always returns at once (it is a single step that no state
    blocks) and only appends the pair [(keys, docs)] to [_jobs]: the
    store, the busy flag, the exit signal and the worker are as before. *)
Theorem add_only_appends_to_jobs s keys docs :
  let a := obj s in
  step_env s (mkSys (add a keys docs) (main s) (heap s)) /\
  _jobs (add a keys docs) = _jobs a ++ [(keys, docs)] /\
  base (add a keys docs) = base a /\
  _is_busy (add a keys docs) = _is_busy a /\
  _exit_signal (add a keys docs) = _exit_signal a /\
  _thread (add a keys docs) = _thread a.
Proof. split; [apply env_add | done]. Qed.

End AsyncLVDBIndexer_claims.

(** ** The claims above at the sample inputs *)

Section AsyncLVDBIndexer_samples.
Import AsyncLVDBIndexer Sample.

Lemma sample_async_init : __init__ "db" None h0 = (Ret ax0, h1).
Proof. reflexivity. Qed.

(** [add([1], ["a"])], then the worker runs. *)
Lemma sample_run :
  reachable (mkSys ax0 (Q_wait [k1] 1) h1)
            (mkSys (with_thread W_returned (add ax0 [k1] [doc_a])) (Q_wait [k1] 1) h1).
Proof.
  eapply rtc_l; [apply (env_add _ [k1] [doc_a])|].
  apply rtc_once. eapply env_thread. by apply step_worker.
Qed.

Lemma query_on_idle_indexer_never_returns_witness :
  __init__ "db" None h0 = (Ret ax0, h1) /\
  reachable (mkSys ax0 (Q_wait [k1] 1) h1)
            (mkSys (with_thread W_returned (add ax0 [k1] [doc_a])) (Q_wait [k1] 1) h1) /\
  caller_step
    (mkSys (with_thread W_returned (add ax0 [k1] [doc_a])) (Q_wait [k1] 1) h1) = None.
Proof.
  split; [reflexivity|]. split; [exact sample_run|].
  destruct (query_on_idle_indexer_never_returns "db" None h0 ax0 h1 [k1] 1
              (mkSys (with_thread W_returned (add ax0 [k1] [doc_a])) (Q_wait [k1] 1) h1)
              eq_refl sample_run) as (_ & _ & Hblocked & _).
  exact Hblocked.
Defined.

Lemma sample_run_idle :
  reachable (mkSys (add ax0 [k1] [doc_a]) Idle h1)
            (mkSys (with_thread W_returned (add ax0 [k1] [doc_a])) Idle h1).
Proof. apply rtc_once. eapply env_thread. by apply step_worker. Qed.

Lemma db_write_returns_without_dequeuing_witness :
  __init__ "db" None h0 = (Ret ax0, h1) /\
  reachable (mkSys (add ax0 [k1] [doc_a]) Idle h1)
            (mkSys (with_thread W_returned (add ax0 [k1] [doc_a])) Idle h1) /\
  ([k1], [doc_a]) ∈ _jobs (with_thread W_returned (add ax0 [k1] [doc_a])) /\
  store (LVDBIndexer._db (base (with_thread W_returned (add ax0 [k1] [doc_a])))) = ∅.
Proof.
  split; [reflexivity|]. split; [exact sample_run_idle|].
  destruct (db_write_returns_without_dequeuing "db" None h0 ax0 h1 [k1] [doc_a]
              (mkSys (with_thread W_returned (add ax0 [k1] [doc_a])) Idle h1)
              eq_refl sample_run_idle) as (_ & Hin & Hs & _).
  split; [exact Hin | exact Hs].
Defined.


End AsyncLVDBIndexer_samples.

(** * The integer conversions [_int2bytes] and [_bytes2int] *)

Section Conversions.
Import LVDBIndexer.

Lemma Z_of_byte_range b : 0 <= Z_of_byte b < 256.
Proof.
  unfold Z_of_byte. pose proof (Byte.to_N_bounded b). lia.
Qed.

Lemma byte_of_Z_of_byte b : byte_of_Z (Z_of_byte b) = b.
Proof.
  unfold byte_of_Z, Z_of_byte. by rewrite N2Z.id, Byte.of_to_N.
Qed.

Lemma Z_of_byte_of_Z z : 0 <= z < 256 -> Z_of_byte (byte_of_Z z) = z.
Proof.
  intros Hz. unfold byte_of_Z, Z_of_byte.
  destruct (Byte.of_N (Z.to_N z)) as [b|] eqn:Hb.
  - apply Byte.to_of_N in Hb. simpl. rewrite Hb. lia.
  - apply Byte.of_N_None_iff in Hb. lia.
Qed.

Lemma Z_of_byte_zero b : Z_of_byte b = 0 -> b = x00.
Proof.
  intros Hb. rewrite <- (byte_of_Z_of_byte b), Hb. reflexivity.
Qed.

Lemma from_bytes_snoc b d : from_bytes (b ++ [d]) = from_bytes b * 256 + Z_of_byte d.
Proof. unfold from_bytes. by rewrite foldl_app. Qed.

Lemma from_bytes_range b : 0 <= from_bytes b < 256 ^ Z.of_nat (length b).
Proof.
  induction b as [|d b IH] using rev_ind; [change (0 <= 0 < 1); lia|].
  rewrite from_bytes_snoc, length_app, Nat2Z.inj_add, Z.pow_add_r by lia.
  pose proof (Z_of_byte_range d). simpl length. change (256 ^ Z.of_nat 1) with 256.
  nia.
Qed.

Lemma from_bytes_app b1 b2 :
  from_bytes (b1 ++ b2) = from_bytes b1 * 256 ^ Z.of_nat (length b2) + from_bytes b2.
Proof.
  induction b2 as [|d b2 IH] using rev_ind.
  - rewrite app_nil_r. simpl. unfold from_bytes at 3. simpl. lia.
  - rewrite app_assoc, !from_bytes_snoc, IH, length_app, Nat2Z.inj_add,
      Z.pow_add_r by lia.
    simpl length. change (256 ^ Z.of_nat 1) with 256. lia.
Qed.

Lemma length_big_endian n x : length (big_endian n x) = n.
Proof.
  revert x. induction n as [|n IH]; intros x; simpl; [done|].
  rewrite length_app, IH. simpl. lia.
Qed.

Lemma from_bytes_big_endian n x :
  0 <= x -> from_bytes (big_endian n x) = x mod 256 ^ Z.of_nat n.
Proof.
  revert x. induction n as [|n IH]; intros x Hx.
  - simpl. by rewrite Z.mod_1_r.
  - cbn [big_endian]. rewrite from_bytes_snoc, IH by (apply Z.div_pos; lia).
    rewrite Z_of_byte_of_Z by (apply Z.mod_pos_bound; lia).
    rewrite Nat2Z.inj_succ, Z.pow_succ_r by lia.
    rewrite (Z.rem_mul_r x 256 (256 ^ Z.of_nat n)) by lia. lia.
Qed.

Lemma big_endian_from_bytes b : big_endian (length b) (from_bytes b) = b.
Proof.
  induction b as [|d b IH] using rev_ind; [done|].
  rewrite length_app, Nat.add_comm. cbn [length Nat.add big_endian].
  rewrite from_bytes_snoc. pose proof (Z_of_byte_range d).
  replace ((from_bytes b * 256 + Z_of_byte d) / 256) with (from_bytes b)
    by (apply Z.div_unique with (Z_of_byte d); lia).
  replace ((from_bytes b * 256 + Z_of_byte d) mod 256) with (Z_of_byte d)
    by (apply Z.mod_unique with (from_bytes b); lia).
  by rewrite IH, byte_of_Z_of_byte.
Qed.

(** The most significant of [S n] digits. *)
Lemma big_endian_head n x :
  big_endian (S n) x = byte_of_Z ((x / 256 ^ Z.of_nat n) mod 256) :: big_endian n x.
Proof.
  revert x. induction n as [|n IH]; intros x.
  - simpl. by rewrite Z.div_1_r.
  - change (big_endian (S (S n)) x)
      with (big_endian (S n) (x / 256) ++ [byte_of_Z (x mod 256)]).
    rewrite IH. cbn [big_endian app]. do 2 f_equal.
    rewrite Nat2Z.inj_succ, Z.pow_succ_r, Z.div_div by lia. reflexivity.
Qed.

Lemma bit_length_pos x :
  0 < x -> 2 ^ (bit_length x - 1) <= x < 2 ^ bit_length x.
Proof.
  intros Hx. unfold bit_length. destruct (decide (x = 0)); [lia|].
  rewrite Z.abs_eq by lia. replace (Z.log2 x + 1 - 1) with (Z.log2 x) by lia.
  replace (Z.log2 x + 1) with (Z.succ (Z.log2 x)) by lia.
  apply Z.log2_spec. done.
Qed.

Lemma byte_length_nonneg x : 0 <= byte_length x.
Proof.
  unfold byte_length, bit_length. destruct (decide (x = 0)); [done|].
  pose proof (Z.log2_nonneg (Z.abs x)). apply Z.div_pos; lia.
Qed.

Lemma pow256 n : 0 <= n -> 256 ^ n = 2 ^ (8 * n).
Proof. intros Hn. rewrite Z.pow_mul_r by lia. reflexivity. Qed.

(** [byte_length x] is the least number of base-256 digits of [x]. *)
Lemma byte_length_spec x :
  0 < x ->
  1 <= byte_length x /\ 256 ^ (byte_length x - 1) <= x < 256 ^ byte_length x.
Proof.
  intros Hx. pose proof (bit_length_pos x Hx) as [Hlo Hhi].
  assert (Hbl : 1 <= bit_length x).
  { unfold bit_length. destruct (decide (x = 0)); [lia|].
    pose proof (Z.log2_nonneg (Z.abs x)). lia. }
  unfold byte_length.
  assert (Hq : 1 <= (bit_length x + 7) / 8) by (apply Z.div_le_lower_bound; lia).
  split; [done|]. rewrite !pow256 by lia. split.
  - etrans; [|exact Hlo]. apply Z.pow_le_mono_r; [lia|].
    pose proof (Z.mul_div_le (bit_length x + 7) 8). lia.
  - eapply Z.lt_le_trans; [exact Hhi|]. apply Z.pow_le_mono_r; [lia|].
    pose proof (Z.mod_pos_bound (bit_length x + 7) 8).
    pose proof (Z.div_mod (bit_length x + 7) 8). lia.
Qed.

Lemma byte_length_unique x n :
  1 <= n -> 256 ^ (n - 1) <= x < 256 ^ n -> byte_length x = n.
Proof.
  intros Hn [Hlo Hhi].
  assert (Hx : 0 < x) by (pose proof (Z.pow_pos_nonneg 256 (n - 1)); lia).
  destruct (byte_length_spec x Hx) as (Hm & Hlo' & Hhi').
  destruct (Z.lt_trichotomy (byte_length x) n) as [Hlt|[Heq|Hgt]]; [|done|].
  - assert (256 ^ byte_length x <= 256 ^ (n - 1)) by (apply Z.pow_le_mono_r; lia). lia.
  - assert (256 ^ n <= 256 ^ (byte_length x - 1)) by (apply Z.pow_le_mono_r; lia). lia.
Qed.

Lemma _int2bytes_nonneg x :
  0 <= x -> _int2bytes x = Ok (big_endian (Z.to_nat (byte_length x)) x).
Proof.
  intros Hx. unfold _int2bytes, to_bytes. fold (byte_length x).
  pose proof (byte_length_nonneg x).
  destruct (decide (byte_length x < 0)); [lia|].
  destruct (decide (x < 0)); [lia|].
  destruct (decide (256 ^ byte_length x <= x)) as [Hbig|]; [|done].
  destruct (decide (x = 0)) as [->|]; [done|].
  destruct (byte_length_spec x) as (_ & _ & ?); lia.
Qed.

Lemma strip_zeros_from_bytes b : from_bytes (strip_zeros b) = from_bytes b.
Proof.
  induction b as [|d b IH]; [done|].
  destruct (decide (d = x00)) as [->|Hd].
  - cbn [strip_zeros]. rewrite IH.
    change (x00 :: b) with ([x00] ++ b). rewrite from_bytes_app.
    change (from_bytes [x00]) with 0. lia.
  - by destruct d.
Qed.

Lemma strip_zeros_head b :
  strip_zeros b = [] \/ exists d r, strip_zeros b = d :: r /\ d <> x00.
Proof.
  induction b as [|d b IH]; [by left|].
  destruct (decide (d = x00)) as [->|Hd]; [done|].
  right. exists d, b. by destruct d.
Qed.

End Conversions.

Section Conversion_properties.
Import LVDBIndexer.

(** X1: for every non-negative integer, [_int2bytes] returns a byte
    string and [_bytes2int] gives the integer back. *)
Theorem int2bytes_bytes2int_roundtrip x :
  0 <= x -> exists b, _int2bytes x = Ok b /\ _bytes2int b = x.
Proof.
  intros Hx. eexists. split; [by apply _int2bytes_nonneg|].
  unfold _bytes2int. rewrite from_bytes_big_endian by done.
  rewrite Z2Nat.id by apply byte_length_nonneg.
  destruct (decide (x = 0)) as [->|]; [done|].
  destruct (byte_length_spec x) as (_ & _ & ?); [lia|].
  apply Z.mod_small. lia.
Qed.

(** X2: [_int2bytes] raises [OverflowError] on every negative integer. *)
Theorem int2bytes_negative_raises x :
  x < 0 -> _int2bytes x = Err OverflowError.
Proof.
  intros Hx. unfold _int2bytes, to_bytes. fold (byte_length x).
  pose proof (byte_length_nonneg x).
  destruct (decide (byte_length x < 0)); [lia|].
  destruct (decide (x < 0)); [done | lia].
Qed.

(** X3: the result of [_int2bytes] is the shortest encoding: empty for
    0, starting with a non-zero byte otherwise, and no byte string that
    [_bytes2int] maps to the same integer is shorter. *)
Theorem int2bytes_is_shortest x :
  0 <= x ->
  exists b, _int2bytes x = Ok b /\
    (x = 0 -> b = []) /\
    (0 < x -> exists d r, b = d :: r /\ d <> x00) /\
    (forall b', _bytes2int b' = x -> (length b <= length b')%nat).
Proof.
  intros Hx. eexists. split; [by apply _int2bytes_nonneg|].
  split; [by intros ->|]. split.
  - intros Hpos. destruct (byte_length_spec x Hpos) as (Hn & Hlo & Hhi).
    replace (Z.to_nat (byte_length x)) with (S (Z.to_nat (byte_length x - 1))) by lia.
    rewrite big_endian_head. eexists _, _. split; [reflexivity|].
    rewrite Z2Nat.id by lia.
    set (p := 256 ^ (byte_length x - 1)) in *.
    assert (Hp : 0 < p) by (apply Z.pow_pos_nonneg; lia).
    assert (Hhi' : x < 256 * p).
    { unfold p. rewrite <- Z.pow_succ_r by lia.
      by replace (Z.succ (byte_length x - 1)) with (byte_length x) by lia. }
    assert (Hq : 1 <= x / p < 256).
    { split; [apply Z.div_le_lower_bound; lia|].
      apply Z.div_lt_upper_bound; lia. }
    rewrite Z.mod_small by lia. intros Hz.
    apply (f_equal Z_of_byte) in Hz. rewrite Z_of_byte_of_Z in Hz by lia.
    change (Z_of_byte x00) with 0 in Hz. lia.
  - intros b' Hb'. rewrite length_big_endian.
    destruct (decide (x = 0)) as [->|Hne];
      [replace (byte_length 0) with 0 by done; lia|].
    destruct (byte_length_spec x) as (Hn & Hlo & _); [lia|].
    pose proof (from_bytes_range b') as [_ Hr]. unfold _bytes2int in Hb'.
    rewrite Hb' in Hr.
    destruct (decide (Z.of_nat (length b') < byte_length x)) as [Hlt|]; [|lia].
    assert (256 ^ Z.of_nat (length b') <= 256 ^ (byte_length x - 1))
      by (apply Z.pow_le_mono_r; lia). lia.
Qed.

(** X4: encoding the integer of a byte string gives the byte string
    back without its leading zero bytes; so the round trip from bytes
    holds exactly for the byte strings that do not start with a zero
    byte. *)
Theorem bytes2int_int2bytes_strips_zeros b :
  _int2bytes (_bytes2int b) = Ok (strip_zeros b).
Proof.
  unfold _bytes2int. rewrite <- strip_zeros_from_bytes.
  destruct (strip_zeros_head b) as [->|(d & r & -> & Hd)]; [done|].
  set (s := d :: r). pose proof (from_bytes_range s) as [Hlo Hhi].
  assert (Hge : 256 ^ Z.of_nat (length r) <= from_bytes s).
  { unfold s. change (d :: r) with ([d] ++ r). rewrite from_bytes_app.
    change (from_bytes [d]) with (0 * 256 + Z_of_byte d).
    pose proof (Z_of_byte_range d). pose proof (from_bytes_range r).
    assert (Z_of_byte d <> 0) by (intros ?%Z_of_byte_zero; done).
    assert (0 < 256 ^ Z.of_nat (length r)) by (apply Z.pow_pos_nonneg; lia).
    nia. }
  rewrite _int2bytes_nonneg by done.
  assert (Hlen : byte_length (from_bytes s) = Z.of_nat (length s)).
  { apply byte_length_unique; [unfold s; simpl; lia|]. split; [|done].
    replace (Z.of_nat (length s) - 1) with (Z.of_nat (length r))
      by (unfold s; simpl; lia). done. }
  by rewrite Hlen, Nat2Z.id, big_endian_from_bytes.
Qed.

(** X5: [_bytes2int] reads a byte string as a big-endian base-256
    number: the result is between 0 and [256 ^ len], and the value of a
    concatenation is the value of the first part shifted by the length
    of the second, plus the value of the second. *)
Theorem bytes2int_positional b1 b2 :
  0 <= _bytes2int b1 < 256 ^ Z.of_nat (length b1) /\
  _bytes2int (b1 ++ b2) =
    _bytes2int b1 * 256 ^ Z.of_nat (length b2) + _bytes2int b2.
Proof. split; [apply from_bytes_range | apply from_bytes_app]. Qed.

End Conversion_properties.

Lemma int2bytes_bytes2int_roundtrip_witness :
  0 <= 65536 /\
  exists b, LVDBIndexer._int2bytes 65536 = Ok b /\ LVDBIndexer._bytes2int b = 65536.
Proof.
  split; [lia|]. apply (int2bytes_bytes2int_roundtrip 65536). lia.
Defined.

Lemma int2bytes_negative_raises_witness :
  -1 < 0 /\ LVDBIndexer._int2bytes (-1) = Err OverflowError.
Proof.
  split; [lia|]. apply (int2bytes_negative_raises (-1)). lia.
Defined.

Lemma int2bytes_is_shortest_witness :
  0 <= 256 /\
  exists b, LVDBIndexer._int2bytes 256 = Ok b /\
    (256 = 0 -> b = []) /\
    (0 < 256 -> exists d r, b = d :: r /\ d <> x00) /\
    (forall b', LVDBIndexer._bytes2int b' = 256 -> (length b <= length b')%nat).
Proof.
  split; [lia|]. apply (int2bytes_is_shortest 256). lia.
Defined.

(** * More on LVDBIndexer: how [add], [query] and [close] compose *)

Section LVDBIndexer_composition.
Context `{Pickle}.
Import LVDBIndexer.

Lemma zip_app {A B} (l1 l2 : list A) (m1 m2 : list B) :
  length l1 = length m1 -> zip (l1 ++ l2) (m1 ++ m2) = zip l1 m1 ++ zip l2 m2.
Proof.
  revert m1. induction l1 as [|a l1 IH]; intros [|b m1] Hl; simpl in *; try done.
  rewrite IH by lia. done.
Qed.

Lemma dumps_notin_puts k kds : k ∉ kds.*1 -> dumps k ∉ (puts_of kds).*1.
Proof.
  intros Hk. unfold puts_of. rewrite <- list_fmap_compose.
  intros ([k' d'] & Heq & Hin)%list_elem_of_fmap. simpl in Heq.
  apply dumps_inj in Heq as ->. apply Hk. apply list_elem_of_fmap. by exists (k', d').
Qed.

(** The store after a batch of puts is the batch laid over the old
    store. *)
Lemma apply_puts_union wb s : apply_puts wb s = apply_puts wb ∅ ∪ s.
Proof.
  revert s. induction wb as [|[k v] wb IH]; intros s.
  - simpl. by rewrite (left_id_L ∅ (∪)).
  - rewrite !apply_puts_cons, (IH (<[k:=v]> s)), (IH (<[k:=v]> ∅)).
    rewrite insert_empty, <- (assoc_L (∪)). by rewrite <- insert_union_singleton_l.
Qed.

(** Two indexers that agree on the handle state, the sentinel and the
    values of the keys asked for answer a query alike. *)
Lemma query_loop_ext self self' ks res h :
  closed (_db self') = closed (_db self) ->
  _NOT_FOUND self' = _NOT_FOUND self ->
  Forall (fun k => store (_db self') !! dumps k = store (_db self) !! dumps k) ks ->
  query_loop self' ks res h = query_loop self ks res h.
Proof.
  intros Hc Hnf Hks. revert res h.
  induction Hks as [|k ks Hk Hks IH]; intros res h; [done|].
  simpl. unfold bind, DB_get. rewrite Hc, Hk, Hnf.
  destruct (closed (_db self)); [done|]. unfold ret at 1 3.
  destruct (truthy_get _).
  - destruct (pickle_loads _ h) as [[o|e] h1]; [apply IH | done].
  - unfold ret at 1 2. apply IH.
Qed.

(** The loop of [query] with a list so far is the loop from the empty
    list, with its result appended. *)
Lemma query_loop_acc self ks res h :
  query_loop self ks res h =
    match query_loop self ks [] h with
    | (Ret out, h') => (Ret (res ++ out), h')
    | (Raise e, h') => (Raise e, h')
    end.
Proof.
  revert res h. induction ks as [|k ks IH]; intros res h.
  - simpl. unfold ret. by rewrite app_nil_r.
  - simpl. unfold bind. destruct (DB_get (_db self) (dumps k) h) as [[v|e] h1]; [|done].
    destruct ((if truthy_get v then pickle_loads (default [] v)
               else ret (_NOT_FOUND self)) h1) as [[o|e] h2]; [|done].
    rewrite (IH (res ++ [o])), (IH ([] ++ [o])).
    destruct (query_loop self ks [] h2) as [[out|e] h3]; [|done].
    by rewrite <- app_assoc.
Qed.

Lemma query_loop_hits self ks ds res h :
  closed (_db self) = false ->
  Forall2 (fun k d => store (_db self) !! dumps k = Some (dumps d)) ks ds ->
  exists out h', query_loop self ks res h = (Ret (res ++ out), h') /\
                 obj_val <$> out = ds.
Proof.
  intros Ho Hks. revert res h.
  induction Hks as [|k d ks ds Hk Hks IH]; intros res h.
  - exists [], h. simpl. by rewrite app_nil_r.
  - rewrite query_loop_cons by done. rewrite Hk.
    destruct (dumps d) as [|b v] eqn:Hd; [by apply dumps_nonempty in Hd|].
    rewrite <- Hd, loads_dumps.
    destruct (loaded_object_spec d h) as (o & h1 & Hlo & Hv & _). rewrite Hlo.
    destruct (IH (res ++ [o]) h1) as (out & h' & Hq & Hout).
    exists (o :: out), h'. rewrite Hq, <- app_assoc.
    split; [done|]. rewrite fmap_cons. by rewrite Hv, Hout.
Qed.

Lemma zip_fst_elem {A B} (a : A) (b : B) (l : list A) (m : list B) :
  (a, b) ∈ zip l m -> a ∈ l.
Proof.
  revert m. induction l as [|x l IH]; intros [|y m] Hin; simpl in Hin;
    try by apply elem_of_nil in Hin.
  apply elem_of_cons in Hin as [[= -> ->]|Hin]; [by left|].
  right. by eapply IH.
Qed.

Lemma apply_puts_hits keys docs s :
  NoDup keys -> length keys = length docs ->
  Forall2 (fun k d => apply_puts (puts_of (zip keys docs)) s !! dumps k = Some (dumps d))
          keys docs.
Proof.
  intros Hnd. revert docs s.
  induction Hnd as [|k ks Hk Hnd IH]; intros [|d ds] s Hl; simpl in Hl;
    try discriminate Hl; [constructor|].
  constructor.
  - change (puts_of (zip (k :: ks) (d :: ds)))
      with ([] ++ (dumps k, dumps d) :: puts_of (zip ks ds)).
    apply apply_puts_last, dumps_notin_puts.
    intros ([k' d'] & Heq & Hin)%list_elem_of_fmap. simpl in Heq. subst k'.
    apply Hk. by eapply zip_fst_elem.
  - change (puts_of (zip (k :: ks) (d :: ds)))
      with ((dumps k, dumps d) :: puts_of (zip ks ds)).
    rewrite apply_puts_cons. apply IH. lia.
Qed.

End LVDBIndexer_composition.

Section LVDBIndexer_more_properties.
Context `{Pickle}.
Import LVDBIndexer.

(** X6: after [add] of distinct keys with as many documents, a query
    for the same key list returns the documents of the batch, in the
    order of the keys. *)
Theorem add_then_query_returns_docs self keys docs self' top_k h :
  NoDup keys ->
  length keys = length docs ->
  add self keys docs = Ret self' ->
  exists res h', query self' keys top_k h = (Ret res, h') /\ obj_val <$> res = docs.
Proof.
  intros Hnd Hl (_ & Ho & _ & _ & Hs)%add_Ret_inv.
  destruct (query_loop_hits self' keys docs [] h Ho) as (out & h' & Hq & Hout).
  { rewrite Hs. by apply apply_puts_hits. }
  by exists out, h'.
Qed.

(** X7: [add] leaves the other keys alone: a query for keys that are not
    among the pairs of the batch gives the same result, at the same
    heap, before and after. *)
Theorem add_leaves_other_keys self keys docs self' ks top_k h :
  add self keys docs = Ret self' ->
  Forall (fun k => k ∉ (zip keys docs).*1) ks ->
  query self' ks top_k h = query self ks top_k h.
Proof.
  intros (Ho & Ho' & _ & Hnf & Hs)%add_Ret_inv Hks. unfold query.
  apply query_loop_ext; [congruence | done |].
  eapply Forall_impl; [exact Hks|]. intros k Hk. simpl.
  rewrite Hs. by apply apply_puts_notin, dumps_notin_puts.
Qed.

(** X8: two calls of [add] in a row, the first with as many keys as
    documents, leave the indexer as one call with the concatenated
    lists does. *)
Theorem add_twice_is_add_concatenated self k1 d1 s1 k2 d2 s2 :
  length k1 = length d1 ->
  add self k1 d1 = Ret s1 ->
  add s1 k2 d2 = Ret s2 ->
  add self (k1 ++ k2) (d1 ++ d2) = Ret s2.
Proof.
  intros Hl Ha1 Ha2.
  pose proof (add_Ret_inv _ _ _ _ Ha1) as (Ho & Ho1 & Hp1 & Hnf1 & Hs1).
  rewrite (add_open s1) in Ha2 by done. injection Ha2 as <-.
  rewrite add_open by done. rewrite zip_app by done.
  unfold puts_of at 1. rewrite map_app. fold (puts_of (zip k1 d1)) (puts_of (zip k2 d2)).
  by rewrite apply_puts_app, Hp1, Hnf1, Hs1.
Qed.

(** X9: [add] is idempotent: repeating a call that succeeded, with the
    same keys and documents, changes nothing. *)
Theorem add_same_batch_again_changes_nothing self keys docs s1 :
  add self keys docs = Ret s1 -> add s1 keys docs = Ret s1.
Proof.
  intros Ha. pose proof (add_Ret_inv _ _ _ _ Ha) as (Ho & Ho1 & Hp1 & Hnf1 & Hs1).
  rewrite add_open in Ha by done. rewrite add_open by done.
  injection Ha as <-. simpl. do 3 f_equal.
  rewrite (apply_puts_union _ (apply_puts _ _)), (apply_puts_union _ (store _)).
  by rewrite (assoc_L (∪)), (idemp_L (∪)).
Qed.

(** X10: after [close] the store is as it was, and the indexer refuses
    to work: [add] raises [RuntimeError] whatever the batch, and [query]
    raises it for every non-empty key list; only the query of the empty
    list still returns (the empty list). *)
Theorem closed_indexer_raises self keys docs k ks top_k h :
  store (_db (close self)) = store (_db self) /\
  add (close self) keys docs = Raise RuntimeError /\
  query (close self) (k :: ks) top_k h = (Raise RuntimeError, h) /\
  query (close self) [] top_k h = (Ret [], h).
Proof. done. Qed.

(** X11: a query for a concatenation of key lists is the query for the
    first list followed by the query for the second, with the results
    concatenated (and the exception of whichever raises first). *)
Theorem query_concatenation self ks1 ks2 top_k h :
  query self (ks1 ++ ks2) top_k h =
    (do r1 <- query self ks1 top_k;
     do r2 <- query self ks2 top_k;
     ret (r1 ++ r2)) h.
Proof.
  unfold query. unfold bind at 1 2.
  assert (Hgen : forall res h,
    query_loop self (ks1 ++ ks2) res h =
      match query_loop self ks1 res h with
      | (Ret r1, h1) => query_loop self ks2 r1 h1
      | (Raise e, h1) => (Raise e, h1)
      end).
  { induction ks1 as [|k ks1 IH]; intros res h0; [done|].
    simpl. unfold bind.
    destruct (DB_get (_db self) (dumps k) h0) as [[v|e] h1]; [|done].
    destruct ((if truthy_get v then pickle_loads (default [] v)
               else ret (_NOT_FOUND self)) h1) as [[o|e] h2]; [|done].
    apply IH. }
  rewrite Hgen. destruct (query_loop self ks1 [] h) as [[r1|e] h1]; [|done].
  rewrite query_loop_acc. by destruct (query_loop self ks2 [] h1) as [[r2|e] h2].
Qed.

End LVDBIndexer_more_properties.

Section LVDBIndexer_more_samples.
Import LVDBIndexer Sample.

Lemma add_then_query_returns_docs_witness :
  NoDup [k1; k2] /\
  length [k1; k2] = length [doc_a; empty_dict] /\
  add ix0 [k1; k2] [doc_a; empty_dict] = Ret ix1 /\
  exists res h',
    query ix1 [k1; k2] 1 h1 = (Ret res, h') /\ obj_val <$> res = [doc_a; empty_dict].
Proof.
  assert (Hnd : NoDup [k1; k2]).
  { apply (bool_decide_unpack _). vm_compute. reflexivity. }
  split; [exact Hnd|]. split; [reflexivity|]. split; [reflexivity|].
  apply (add_then_query_returns_docs ix0 [k1; k2] [doc_a; empty_dict] ix1 1 h1);
    [exact Hnd | reflexivity | reflexivity].
Defined.

Lemma sample_other_keys :
  Forall (fun k => k ∉ (zip [k1; k2; k1] [doc_a; doc_b; doc_c]).*1) [k3].
Proof.
  apply (bool_decide_unpack _). vm_compute. reflexivity.
Qed.

Lemma add_leaves_other_keys_witness :
  add ix0 [k1; k2; k1] [doc_a; doc_b; doc_c] = Ret ix2 /\
  Forall (fun k => k ∉ (zip [k1; k2; k1] [doc_a; doc_b; doc_c]).*1) [k3] /\
  query ix2 [k3] 1 h1 = query ix0 [k3] 1 h1.
Proof.
  split; [reflexivity|]. split; [exact sample_other_keys|].
  apply (add_leaves_other_keys ix0 [k1; k2; k1] [doc_a; doc_b; doc_c] ix2 [k3] 1 h1);
    [reflexivity | exact sample_other_keys].
Defined.

Lemma add_twice_is_add_concatenated_witness :
  length [k1; k2] = length [doc_a; doc_b] /\
  add ix0 [k1; k2] [doc_a; doc_b] =
    Ret (mk "db" (mkDB (<[dumps k2 := dumps doc_b]> (<[dumps k1 := dumps doc_a]> ∅)) false)
            (mkObj 3 empty_dict)) /\
  add (mk "db" (mkDB (<[dumps k2 := dumps doc_b]> (<[dumps k1 := dumps doc_a]> ∅)) false)
          (mkObj 3 empty_dict)) [k1] [doc_c] = Ret ix2 /\
  add ix0 ([k1; k2] ++ [k1]) ([doc_a; doc_b] ++ [doc_c]) = Ret ix2.
Proof.
  split; [reflexivity|]. split; [reflexivity|]. split; [reflexivity|].
  apply (add_twice_is_add_concatenated ix0 [k1; k2] [doc_a; doc_b]
           (mk "db" (mkDB (<[dumps k2 := dumps doc_b]> (<[dumps k1 := dumps doc_a]> ∅)) false)
               (mkObj 3 empty_dict)) [k1] [doc_c] ix2); reflexivity.
Defined.

Lemma add_same_batch_again_changes_nothing_witness :
  add ix0 [k1; k2; k1] [doc_a; doc_b; doc_c] = Ret ix2 /\
  add ix2 [k1; k2; k1] [doc_a; doc_b; doc_c] = Ret ix2.
Proof.
  split; [reflexivity|].
  apply (add_same_batch_again_changes_nothing ix0 [k1; k2; k1] [doc_a; doc_b; doc_c] ix2).
  reflexivity.
Defined.

End LVDBIndexer_more_samples.

(** * More on AsyncLVDBIndexer: [_add], sequences of calls, [__getstate__] *)

Section AsyncLVDBIndexer_more_properties.
Context `{Pickle}.
Import AsyncLVDBIndexer.

(** X12: [_add] on an open database takes three steps: it sets the busy
    flag, writes the batch as [LVDBIndexer.add] does while the flag is
    set, and clears the flag; the worker is then back at the loop test
    and the jobs and the exit signal are untouched. *)
Theorem _add_sets_busy_around_the_write a keys docs :
  _thread a = W_busy_set keys docs ->
  closed (LVDBIndexer._db (base a)) = false ->
  exists a1 a2 a3 b,
    worker_step a = Some a1 /\ worker_step a1 = Some a2 /\ worker_step a2 = Some a3 /\
    LVDBIndexer.add (base a) keys docs = Ret b /\
    (Event.is_set (_is_busy a1) = true /\ base a1 = base a /\
     _thread a1 = W_super_add keys docs) /\
    (Event.is_set (_is_busy a2) = true /\ base a2 = b) /\
    (Event.is_set (_is_busy a3) = false /\ base a3 = b /\ _thread a3 = W_while /\
     _jobs a3 = _jobs a /\ _exit_signal a3 = _exit_signal a).
Proof.
  intros Ht Ho. destruct a as [b eb ee j w]. simpl in *. subst w.
  pose proof (add_open b keys docs Ho) as Ha.
  destruct (LVDBIndexer.add b keys docs) as [b'|] eqn:Hb; [|done]. clear Ha.
  exists (mk b (Event.set eb) ee j (W_super_add keys docs)),
         (mk b' (Event.set eb) ee j W_busy_clear),
         (mk b' (Event.clear (Event.set eb)) ee j W_while), b'.
  split; [reflexivity|]. split; [unfold worker_step; simpl; by rewrite Hb|].
  done.
Qed.


(** X14: on a new indexer, whatever calls of [add], [query] and [close]
    the client makes one after another and however the worker is
    scheduled, the store stays the one the database was opened on, the
    busy flag stays clear, and no call of [query] ever returns or even
    gets past its [wait()]. *)
Theorem new_indexer_never_writes_nor_answers path on_disk h0 a h1 s' :
  __init__ path on_disk h0 = (Ret a, h1) ->
  rtc step_client (mkSys a Idle h1) s' ->
  store (LVDBIndexer._db (base (obj s'))) = default ∅ on_disk /\
  Event.is_set (_is_busy (obj s')) = false /\
  (forall r, main s' <> Q_returned r) /\
  (forall keys top_k, main s' <> Q_super keys top_k) /\
  heap s' = h1.
Proof.
  intros (Ht & _ & Hb & _ & Hdb & _)%init_inv Hr.
  pose (I := fun s => never_writes (default ∅ on_disk) s /\
                      (forall r, main s <> Q_returned r) /\
                      (forall keys top_k, main s <> Q_super keys top_k) /\
                      heap s = h1).
  assert (HI : I s').
  { assert (HI0 : I (mkSys a Idle h1)).
    { split; [|done]. split; [by left|]. simpl. by rewrite Hb, Hdb. }
    clear -Hr HI0. induction Hr as [|x y z Hstep _ IH]; [done|]. apply IH.
    destruct HI0 as (Hn & Hq & Hs & Hh).
    destruct Hstep as [s s2 Henv|s keys top_k _|s _].
    - split; [by eapply never_writes_step|].
      destruct Henv as [s e s2 Hstep|s ks ds]; [|done].
      destruct Hstep as [s a' Hw|s e s2 Hc]; [done|].
      unfold caller_step in Hc. destruct Hn as (_ & Hbusy & _).
      unfold Event.can_return, Event.is_set in *.
      destruct (main s) eqn:Hm; try done.
      + by rewrite Hbusy in Hc.
      + by specialize (Hs keys top_k).
      + by injection Hc as <- <-.
      + by injection Hc as <- <-.
      + destruct (is_alive _); [done|]. by injection Hc as <- <-.
      + by injection Hc as <- <-.
    - done.
    - done. }
  destruct HI as ((_ & Hbusy & Hst) & Hq & Hs & Hh). done.
Qed.

(** X15: [__getstate__] returns the parent's dict without the four
    runtime fields ["_db"], ["_thread"], ["_is_busy"], ["_exit_signal"]
    and with every other entry as it was (so the pending ["_jobs"] stay
    in the pickled state); it raises [KeyError] for the first of the
    four that the dict lacks. *)
Theorem getstate_drops_the_runtime_fields {V} (d : gmap string V) :
  match __getstate__ d with
  | Ok d' =>
      (forall k, k ∈ runtime_fields -> is_Some (d !! k) /\ d' !! k = None) /\
      (forall k, k ∉ runtime_fields -> d' !! k = d !! k)
  | Err e =>
      exists pre k post,
        e = KeyError k /\ runtime_fields = pre ++ k :: post /\
        d !! k = None /\ Forall (fun k' => is_Some (d !! k')) pre
  end.
Proof.
  unfold __getstate__, LVDBIndexer.__getstate__, dict_del, runtime_fields.
  destruct (d !! "_db") as [v1|] eqn:H1; cycle 1.
  { exists [], "_db", ["_thread"; "_is_busy"; "_exit_signal"]. done. }
  rewrite lookup_delete_ne by done.
  destruct (d !! "_thread") as [v2|] eqn:H2; cycle 1.
  { exists ["_db"], "_thread", ["_is_busy"; "_exit_signal"].
    repeat split; [done|]. repeat constructor. by rewrite H1. }
  rewrite !lookup_delete_ne by done.
  destruct (d !! "_is_busy") as [v3|] eqn:H3; cycle 1.
  { exists ["_db"; "_thread"], "_is_busy", ["_exit_signal"].
    repeat split; [done|]. repeat constructor; by rewrite ?H1, ?H2. }
  rewrite !lookup_delete_ne by done.
  destruct (d !! "_exit_signal") as [v4|] eqn:H4; cycle 1.
  { exists ["_db"; "_thread"; "_is_busy"], "_exit_signal", [].
    repeat split; [done|]. repeat constructor; by rewrite ?H1, ?H2, ?H3. }
  split.
  - intros k Hk. repeat (apply elem_of_cons in Hk as [->|Hk]);
      [..|by apply elem_of_nil in Hk];
      (split; [by rewrite ?H1, ?H2, ?H3, ?H4|]);
      rewrite ?lookup_delete_eq; try done;
      repeat (rewrite lookup_delete_ne by done; rewrite ?lookup_delete_eq; try done).
  - intros k Hk. repeat (apply not_elem_of_cons in Hk as [? Hk]).
    by rewrite !lookup_delete_ne.
Qed.

End AsyncLVDBIndexer_more_properties.

Section Reopening.
Context `{Pickle}.
Import LVDBIndexer.

(** X16: what [add] wrote is there for the next indexer: after an [add]
    of distinct keys with as many documents and [close], an indexer
    built by [__init__] on the store left behind answers a query for
    those keys with the documents of the batch. *)
Theorem reopen_returns_stored_docs
    self keys docs self1 path h self2 h' top_k hq :
  NoDup keys ->
  length keys = length docs ->
  add self keys docs = Ret self1 ->
  __init__ path (Some (store (_db (close self1)))) h = (Ret self2, h') ->
  exists res hq', query self2 keys top_k hq = (Ret res, hq') /\ obj_val <$> res = docs.
Proof.
  intros Hnd Hl (_ & _ & _ & _ & Hs)%add_Ret_inv Hi.
  unfold __init__, bind, new_object, ret in Hi. injection Hi as <- <-.
  destruct (query_loop_hits
              (mk path (plyvel_DB (Some (store (_db (close self1)))))
                  (mkObj (next_id h) (PyDict []))) keys docs [] hq)
    as (out & hq' & Hq & Hout); [done| |by exists out, hq'].
  simpl. rewrite Hs. by apply apply_puts_hits.
Qed.

End Reopening.

Section More_samples.
Import LVDBIndexer AsyncLVDBIndexer Sample.

Lemma reopen_returns_stored_docs_witness :
  NoDup [k1; k2] /\
  length [k1; k2] = length [doc_a; empty_dict] /\
  LVDBIndexer.add ix0 [k1; k2] [doc_a; empty_dict] = Ret ix1 /\
  LVDBIndexer.__init__ "db" (Some (store (_db (close ix1)))) h1
    = (Ret ix1_reopened, mkHeap 2) /\
  exists res hq',
    query ix1_reopened [k1; k2] 1 (mkHeap 2) = (Ret res, hq') /\
    obj_val <$> res = [doc_a; empty_dict].
Proof.
  assert (Hnd : NoDup [k1; k2]).
  { apply (bool_decide_unpack _). vm_compute. reflexivity. }
  split; [exact Hnd|]. split; [reflexivity|]. split; [reflexivity|].
  split; [reflexivity|].
  apply (reopen_returns_stored_docs ix0 [k1; k2] [doc_a; empty_dict] ix1 "db" h1
           ix1_reopened (mkHeap 2) 1 (mkHeap 2));
    [exact Hnd | reflexivity | reflexivity | reflexivity].
Defined.

Lemma _add_sets_busy_around_the_write_witness :
  _thread ax_add = W_busy_set [k1] [doc_a] /\
  closed (_db (base ax_add)) = false /\
  exists a1 a2 a3 b,
    worker_step ax_add = Some a1 /\ worker_step a1 = Some a2 /\
    worker_step a2 = Some a3 /\
    LVDBIndexer.add (base ax_add) [k1] [doc_a] = Ret b /\
    Event.is_set (_is_busy a2) = true /\ base a2 = b /\
    Event.is_set (_is_busy a3) = false /\ _thread a3 = W_while.
Proof.
  split; [reflexivity|]. split; [reflexivity|].
  destruct (_add_sets_busy_around_the_write ax_add [k1] [doc_a] eq_refl eq_refl)
    as (a1 & a2 & a3 & b & H1 & H2 & H3 & Hb & _ & (Hs2 & Hb2) & (Hs3 & _ & Ht3 & _)).
  exists a1, a2, a3, b. repeat split; assumption.
Defined.


Lemma sample_calls :
  rtc step_client (mkSys ax0 Idle h1)
      (mkSys (with_thread W_returned (add ax0 [k1] [doc_a])) (Q_wait [k1] 1) h1).
Proof.
  apply rtc_l with (mkSys (add ax0 [k1] [doc_a]) Idle h1).
  { apply client_env. exact (env_add (mkSys ax0 Idle h1) [k1] [doc_a]). }
  apply rtc_l with (mkSys (with_thread W_returned (add ax0 [k1] [doc_a])) Idle h1).
  { apply client_env. eapply env_thread.
    exact (step_worker (mkSys (add ax0 [k1] [doc_a]) Idle h1) _ eq_refl). }
  apply rtc_once.
  exact (client_query
           (mkSys (with_thread W_returned (add ax0 [k1] [doc_a])) Idle h1)
           [k1] 1 eq_refl).
Qed.

Lemma new_indexer_never_writes_nor_answers_witness :
  AsyncLVDBIndexer.__init__ "db" None h0 = (Ret ax0, h1) /\
  rtc step_client (mkSys ax0 Idle h1)
      (mkSys (with_thread W_returned (add ax0 [k1] [doc_a])) (Q_wait [k1] 1) h1) /\
  store (_db (base (with_thread W_returned (add ax0 [k1] [doc_a])))) = ∅.
Proof.
  split; [reflexivity|]. split; [exact sample_calls|].
  destruct (new_indexer_never_writes_nor_answers "db" None h0 ax0 h1
              (mkSys (with_thread W_returned (add ax0 [k1] [doc_a])) (Q_wait [k1] 1) h1)
              eq_refl sample_calls) as (Hs & _).
  exact Hs.
Defined.

End More_samples.
